(** * Noise: a shallow embedding of the multi-level branching-noise engine

    The embedding follows [Noise/Source/noise.cpp] function by function.

    - C++ [int] is a 32-bit two's-complement integer, modelled as [Z] with the
      wrap-around written out ([CInt.wrap]); [%] and [/] truncate toward zero.
    - C++ [double] is modelled by the rationals [Q]: exact arithmetic, the
      comparisons [<], [==] of the source become [ltb], [eqb] below.  Rounding,
      infinities and NaN are outside this model.
    - The planar helpers of math2d.h ([dist], [length],
      [pointLineProjection], [distToLineSegment]) are absent from the sources
      and are parameters ([Geom.Math2D]).
    - [std::array] and [std::vector] are lists, read by index with a default
      (the source reads in range only) and written by index with stdpp's
      insert.
    - Loops are folds over their index range, in the order the source runs
      them. *)

From Stdlib Require Import ZArith QArith Qround Qabs Qminmax Lqa Lia Bool.
From stdpp Require Import base list.

Local Open Scope Z_scope.

(** ** Machine integers *)

Module CInt.

Definition INT_MAX : Z := 2147483647.
Definition INT_MIN : Z := -2147483648.

Definition in_range (z : Z) : Prop := INT_MIN <= z <= INT_MAX.

(** Two's-complement wrap-around of a mathematical integer into [int]. *)
Definition wrap (z : Z) : Z := (z + 2 ^ 31) mod 2 ^ 32 - 2 ^ 31.

Definition add (a b : Z) : Z := wrap (a + b).
Definition sub (a b : Z) : Z := wrap (a - b).
Definition mul (a b : Z) : Z := wrap (a * b).
Definition neg (a : Z) : Z := wrap (- a).

(** [a / b] and [a % b] of C++: quotient truncated toward zero, remainder
    with the sign of the dividend. *)
Definition div (a b : Z) : Z := wrap (Z.quot a b).
Definition rem (a b : Z) : Z := Z.rem a b.

End CInt.

(** ** Doubles *)

Module Dbl.

Local Open Scope Q_scope.

(** [numeric_limits<double>::max()]. *)
Definition DBL_MAX : Q := inject_Z (2 ^ 1024 - 2 ^ 971).

Definition ltb (a b : Q) : bool := negb (Qle_bool b a).
Definition eqb (a b : Q) : bool := Qeq_bool a b.

(** [double(i)] for an [int] i. *)
Definition of_int (i : Z) : Q := inject_Z i.

(** [floor(d)], still a double. *)
Definition floor (d : Q) : Q := inject_Z (Qfloor d).

(** [int(d)]: the fractional part is discarded (truncation toward zero). *)
Definition to_int (d : Q) : Z :=
    CInt.wrap (if ltb d 0 then Qceiling d else Qfloor d).

(** [std::max], [std::clamp] and [abs] of the standard library. *)
Definition max (a b : Q) : Q := if ltb a b then b else a.
Definition clamp (v lo hi : Q) : Q :=
    if ltb v lo then lo else if ltb hi v then hi else v.
Definition abs (a : Q) : Q := Qabs a.

End Dbl.

(** ** Loops *)

(** [for (int i = lo; i < hi; i++) body], threading the state [s]. *)
Definition for_range {S : Type} (lo hi : Z) (body : Z -> S -> S) (s : S) : S :=
  foldl (fun st i => body i st) s (seqZ lo (hi - lo)).

(** [for (const T& e : arr) body]. *)
Definition for_each {S T : Type} (arr : list T) (body : T -> S -> S) (s : S) : S :=
  foldl (fun st e => body e st) s arr.

(** ** Arrays *)

(** [arr[i]]; the default stands for the value-initialised element. *)
Definition get {A : Type} (d : A) (arr : list A) (i : Z) : A :=
  if i <? 0 then d else default d (arr !! Z.to_nat i).

(** [arr[i] = v]. *)
Definition set {A : Type} (arr : list A) (i : Z) (v : A) : list A :=
  if i <? 0 then arr else <[Z.to_nat i := v]> arr.

(** [arr[i][j]] and [arr[i][j] = v]. *)
Definition get2 {A : Type} (d : A) (arr : list (list A)) (i j : Z) : A :=
  get d (get [] arr i) j.

Definition set2 {A : Type} (arr : list (list A)) (i j : Z) (v : A) : list (list A) :=
  set arr i (set (get [] arr i) j v).

(** A value-initialised [array<array<A, m>, n>]. *)
Definition array2 {A : Type} (n m : nat) (d : A) : list (list A) :=
  replicate n (replicate m d).

(** ** Geometry (math2d.h, math3d.h, spline.h, utils.h) *)

Record Point2D : Type := mkPoint2D { x2 : Q; y2 : Q }.
Record Point3D : Type := mkPoint3D { x3 : Q; y3 : Q; z3 : Q }.
Record Segment2D : Type := mkSegment2D { a2 : Point2D; b2 : Point2D }.
Record Segment3D : Type := mkSegment3D { a3 : Point3D; b3 : Point3D }.

Module Geom.

Local Open Scope Q_scope.

(** Value-initialised points and segments. *)
Definition Point2D0 : Point2D := mkPoint2D 0 0.
Definition Point3D0 : Point3D := mkPoint3D 0 0 0.
Definition Segment3D0 : Segment3D := mkSegment3D Point3D0 Point3D0.

Definition Point3D_eqb (p q : Point3D) : bool :=
    Dbl.eqb (x3 p) (x3 q) && Dbl.eqb (y3 p) (y3 q) && Dbl.eqb (z3 p) (z3 q).

(** [k * p] and [p - q] on [Point3D]. *)
Definition scale3 (k : Q) (p : Point3D) : Point3D :=
    mkPoint3D (k * x3 p) (k * y3 p) (k * z3 p).
Definition sub3 (p q : Point3D) : Point3D :=
    mkPoint3D (x3 p - x3 q) (y3 p - y3 q) (z3 p - z3 q).

(** [ProjectionZ]: drop the elevation. *)
Definition ProjectionZ (p : Point3D) : Point2D := mkPoint2D (x3 p) (y3 p).
Definition ProjectionZ_seg (s : Segment3D) : Segment2D :=
    mkSegment2D (ProjectionZ (a3 s)) (ProjectionZ (b3 s)).

(** Modelled from the spec: [MidPoint] of math3d.h, the point halfway
    between the two ends of a segment. *)
Definition MidPoint (s : Segment3D) : Point3D :=
    mkPoint3D ((x3 (a3 s) + x3 (b3 s)) / 2)
              ((y3 (a3 s) + y3 (b3 s)) / 2)
              ((z3 (a3 s) + z3 (b3 s)) / 2).

(** Modelled from the spec: [SubdivideCatmullRomSpline] of spline.h, the
    uniform Catmull-Rom spline through [p1] and [p2] with outer control
    points [p0] and [p3], evaluated at parameter 0.5. *)
Definition CatmullRomHalf (c0 c1 c2 c3 : Q) : Q :=
    ((0 - c0) + 9 * c1 + 9 * c2 - c3) / 16.
Definition SubdivideCatmullRomSpline (p0 p1 p2 p3 : Point3D) : Point3D :=
    mkPoint3D (CatmullRomHalf (x3 p0) (x3 p1) (x3 p2) (x3 p3))
              (CatmullRomHalf (y3 p0) (y3 p1) (y3 p2) (y3 p3))
              (CatmullRomHalf (z3 p0) (z3 p1) (z3 p2) (z3 p3)).

(** The planar helpers of math2d.h are not among the sources, and the
    specification names them without fixing their values: [dist] and
    [length] need a square root, and nothing says what [pointLineProjection]
    and [distToLineSegment] return on a segment of length zero.  They are
    parameters of the development: the engine is verified for whatever they
    return.  [distToLineSegment] also writes the nearest point of the segment
    to a third argument, which no caller reads. *)
Class Math2D : Type := {
  (* dist(p, q) *)
  dist : Point2D -> Point2D -> Q;
  (* length(segment) *)
  length : Segment2D -> Q;
  (* pointLineProjection(p, segment) *)
  pointLineProjection : Point2D -> Segment2D -> Q;
  (* distToLineSegment(p, segment, nearestPoint) *)
  distToLineSegment : Point2D -> Segment2D -> Q
}.

(** Modelled from the spec: [lerp] on a segment (linear interpolation of
    planar position and elevation) and [lerp_clamp] on two doubles. *)
Definition lerp1 (a b u : Q) : Q := a + u * (b - a).

Definition lerp (s : Segment3D) (u : Q) : Point3D :=
    mkPoint3D (lerp1 (x3 (a3 s)) (x3 (b3 s)) u)
              (lerp1 (y3 (a3 s)) (y3 (b3 s)) u)
              (lerp1 (z3 (a3 s)) (z3 (b3 s)) u).

Definition lerp_clamp (a b u : Q) : Q := lerp1 a b (Dbl.clamp u 0 1).

(** Modelled from the spec: [Remap], the linear map sending the interval
    [in0, in1] onto [out0, out1]. *)
Definition Remap (v in0 in1 out0 out1 : Q) : Q :=
    out0 + (v - in0) * (out1 - out0) / (in1 - in0).

End Geom.

(** ** What the engine is compiled against

    noise.h, perlin.h and utils.h are not among the sources: the cache window
    size, the random generator with its uniform distribution, and the control
    function are the parameters of the development. *)

Class Platform : Type := {
  CACHE_X : Z;
  CACHE_Y : Z;
  RandomGenerator : Type;
  (* RandomGenerator generator(seed) *)
  RandomGenerator_seeded : Z -> RandomGenerator;
  (* uniform_real_distribution<double>(a, b)(generator): the variate drawn
     and the advanced generator *)
  uniform_real_distribution : Q -> Q -> RandomGenerator -> Q * RandomGenerator;
  (* Perlin(x, y) *)
  Perlin : Q -> Q -> Q
}.

(** The contract of [std::uniform_real_distribution]: a variate in [a, b). *)
Definition uniform_in_range `{Platform} : Prop :=
  forall (a b : Q) (g : RandomGenerator),
    (a < b)%Q ->
    (a <= fst (uniform_real_distribution a b g))%Q /\
    (fst (uniform_real_distribution a b g) < b)%Q.

(** The control function has range [-1, 1]. *)
Definition Perlin_in_range `{Platform} : Prop :=
  forall x y : Q, (-1 <= Perlin x y)%Q /\ (Perlin x y <= 1)%Q.

(** ** The engine *)

Record Noise : Type := mkNoise {
  m_seed : Z;
  m_displayPoints : bool;
  m_displaySegments : bool;
  m_displayGrid : bool;
  m_noiseTopLeft : Point2D;
  m_noiseBottomRight : Point2D;
  m_perlinTopLeft : Point2D;
  m_perlinBottomRight : Point2D;
  m_eps : Q;
  m_pointCache : list (list Point2D)
}.

Definition with_pointCache (n : Noise) (c : list (list Point2D)) : Noise :=
  mkNoise (m_seed n) (m_displayPoints n) (m_displaySegments n) (m_displayGrid n)
          (m_noiseTopLeft n) (m_noiseBottomRight n)
          (m_perlinTopLeft n) (m_perlinBottomRight n) (m_eps n) c.

Section Engine.
Context `{Platform} {M : Geom.Math2D}.

(** [Noise::GenerateSeedNoise] *)
Definition GenerateSeedNoise (n : Noise) (i j : Z) : Z :=
    CInt.rem (CInt.add (CInt.add (CInt.mul 541 i) (CInt.mul 79 j)) (m_seed n))
             CInt.INT_MAX.

(** [Noise::GeneratePoint] *)
Definition GeneratePoint (n : Noise) (x y : Z) : Point2D :=
    let seed := GenerateSeedNoise n x y in
    let generator := RandomGenerator_seeded seed in
    let '(px, generator) :=
      uniform_real_distribution (m_eps n) (1 - m_eps n)%Q generator in
    let '(py, _) :=
      uniform_real_distribution (m_eps n) (1 - m_eps n)%Q generator in
    mkPoint2D (Dbl.of_int x + px)%Q (Dbl.of_int y + py)%Q.

(** [Noise::InitPointCache] *)
Definition InitPointCache (n : Noise) : Noise :=
    let n := with_pointCache n (resize (Z.to_nat CACHE_X) [] (m_pointCache n)) in
    for_range (CInt.div (CInt.neg CACHE_X) 2) (CInt.div CACHE_X 2) (fun x n =>
      let ix := CInt.add x (CInt.div CACHE_X 2) in
      let n := with_pointCache n
        (set (m_pointCache n) ix
           (resize (Z.to_nat CACHE_Y) Geom.Point2D0 (get [] (m_pointCache n) ix))) in
      for_range (CInt.div (CInt.neg CACHE_Y) 2) (CInt.div CACHE_Y 2) (fun y n =>
        with_pointCache n
          (set2 (m_pointCache n) ix (CInt.add y (CInt.div CACHE_Y 2))
                (GeneratePoint n x y))) n) n.

(** [Noise::Noise] *)
Definition Noise_new (noiseTopLeft noiseBottomRight perlinTopLeft
                        perlinBottomRight : Point2D) (seed : Z) (eps : Q)
                       (displayPoints displaySegments displayGrid : bool) : Noise :=
    InitPointCache
      (mkNoise seed displayPoints displaySegments displayGrid
               noiseTopLeft noiseBottomRight perlinTopLeft perlinBottomRight
               eps []).

(** [Noise::GeneratePointCached] *)
Definition GeneratePointCached (n : Noise) (x y : Z) : Point2D :=
    if (x >=? CInt.div (CInt.neg CACHE_X) 2) && (x <? CInt.div CACHE_X 2)
       && (y >=? CInt.div (CInt.neg CACHE_Y) 2) && (y <? CInt.div CACHE_Y 2)
    then get2 Geom.Point2D0 (m_pointCache n)
              (CInt.add x (CInt.div CACHE_X 2)) (CInt.add y (CInt.div CACHE_Y 2))
    else GeneratePoint n x y.



(** [Noise::GenerateNeighboringPoints5] *)
Definition GenerateNeighboringPoints5 (n : Noise) (cx cy : Z)
    : list (list Point2D) :=
    for_range 0 5 (fun i points =>
      for_range 0 5 (fun j points =>
        let x := CInt.sub (CInt.add cx j) (CInt.div 5 2) in
        let y := CInt.sub (CInt.add cy i) (CInt.div 5 2) in
        set2 points i j (GeneratePointCached n x y)) points)
      (array2 5 5 Geom.Point2D0).

(** [Noise::GenerateNeighboringPoints7] *)
Definition GenerateNeighboringPoints7 (n : Noise) (cx cy : Z)
    : list (list Point2D) :=
    for_range 0 7 (fun i points =>
      for_range 0 7 (fun j points =>
        let x := CInt.sub (CInt.add cx j) (CInt.div 7 2) in
        let y := CInt.sub (CInt.add cy i) (CInt.div 7 2) in
        set2 points i j (GeneratePointCached n x y)) points)
      (array2 7 7 Geom.Point2D0).

(** The elevation sampled for one point, the body of the loop of
    [Noise::ComputeElevations]. *)
Definition Elevation (n : Noise) (p : Point2D) : Q :=
    let x := Geom.Remap (x2 p) (x2 (m_noiseTopLeft n)) (x2 (m_noiseBottomRight n))
                        (x2 (m_perlinTopLeft n)) (x2 (m_perlinBottomRight n)) in
    let y := Geom.Remap (y2 p) (y2 (m_noiseTopLeft n)) (y2 (m_noiseBottomRight n))
                        (y2 (m_perlinTopLeft n)) (y2 (m_perlinBottomRight n)) in
    ((Perlin x y + 1) / 2)%Q.

(** [Noise::ComputeElevations] *)
Definition ComputeElevations (n : Noise) (points : list (list Point2D))
    : list (list Q) :=
    for_range 0 7 (fun i elevations =>
      for_range 0 7 (fun j elevations =>
        set2 elevations i j (Elevation n (get2 Geom.Point2D0 points i j)))
        elevations)
      (array2 7 7 0%Q).

(** The search for the lowest neighbour of cell (i, j), the two inner
    loops of [Noise::GenerateSegments]: the state is
    (lowestNeighborElevation, lowestNeighborI, lowestNeighborJ). *)
Definition LowestNeighbor (elevations : list (list Q)) (i j : Z) : Q * Z * Z :=
    for_range (i - 1) (i + 1 + 1) (fun k st =>
      for_range (j - 1) (j + 1 + 1) (fun l '(lowest, lowestI, lowestJ) =>
        if Dbl.ltb (get2 0%Q elevations k l) lowest
        then (get2 0%Q elevations k l, k, l)
        else (lowest, lowestI, lowestJ)) st)
      (Dbl.DBL_MAX, i, j).

(** The segment of cell (i, j), the body of the outer loops of
    [Noise::GenerateSegments]. *)
Definition CellSegment (points : list (list Point2D))
             (elevations : list (list Q)) (i j : Z) : Segment3D :=
    let '(lowestNeighborElevation, lowestNeighborI, lowestNeighborJ) :=
      LowestNeighbor elevations i j in
    let pa := get2 Geom.Point2D0 points i j in
    let pb := get2 Geom.Point2D0 points lowestNeighborI lowestNeighborJ in
    let a := mkPoint3D (x2 pa) (y2 pa) (get2 0%Q elevations i j) in
    let b := mkPoint3D (x2 pb) (y2 pb) lowestNeighborElevation in
    mkSegment3D a b.

(** [Noise::GenerateSegments] *)
Definition GenerateSegments (n : Noise) (points : list (list Point2D))
    : list Segment3D :=
    let elevations := ComputeElevations n points in
    for_range 1 (7 - 1) (fun i segments =>
      for_range 1 (7 - 1) (fun j segments =>
        set segments (5 * (i - 1) + j - 1) (CellSegment points elevations i j))
        segments)
      (replicate 25 Geom.Segment3D0).

(** The scan of [Noise::SubdivideSegments] for the chain neighbours of
    [currSegment]: the segments of positive length ending in its start and
    those starting in its end. *)
Record ChainScan : Type := mkChainScan {
  numberSegmentEndingInA : Z;
  lastEndingInA : Segment3D;
  numberStartingInB : Z;
  lastStartingInB : Segment3D
}.

Definition ScanChain (segments : list Segment3D) (currSegment : Segment3D)
  : ChainScan :=
  for_each segments (fun segment c =>
    if negb (Geom.Point3D_eqb (a3 segment) (b3 segment)) then
      if Geom.Point3D_eqb (b3 segment) (a3 currSegment) then
        mkChainScan (numberSegmentEndingInA c + 1) segment
                    (numberStartingInB c) (lastStartingInB c)
      else if Geom.Point3D_eqb (a3 segment) (b3 currSegment) then
        mkChainScan (numberSegmentEndingInA c) (lastEndingInA c)
                    (numberStartingInB c + 1) segment
      else c
    else c)
    (mkChainScan 0 Geom.Segment3D0 0 Geom.Segment3D0).

(** Which branch of the if / else-if chain of [Noise::SubdivideSegments]
    computes the midpoint: none of them (the midpoint stays
    [MidPoint(segments[i])]) or one of the three spline evaluations. *)
Inductive MidPointRule : Type :=
| KeepMidPoint
| SplineBothNeighbours
| SplineFakeStart
| SplineFakeEnd.

Definition ChooseRule (c : ChainScan) : MidPointRule :=
  if (numberSegmentEndingInA c =? 1) && (numberStartingInB c =? 1)
  then SplineBothNeighbours
  else if negb (numberSegmentEndingInA c =? 1) && (numberStartingInB c =? 1)
  then SplineFakeStart
  else if (numberSegmentEndingInA c =? 1) && negb (numberStartingInB c =? 1)
  then SplineFakeEnd
  else KeepMidPoint.

(** The midpoint computed for [segments[i]]. *)
Definition SegmentMidPoint (segments : list Segment3D) (i : Z) : Point3D :=
  let currSegment := get Geom.Segment3D0 segments i in
  let c := ScanChain segments currSegment in
  match ChooseRule c with
  | KeepMidPoint => Geom.MidPoint (get Geom.Segment3D0 segments i)
  | SplineBothNeighbours =>
      Geom.SubdivideCatmullRomSpline (a3 (lastEndingInA c)) (a3 currSegment)
                                     (b3 currSegment) (b3 (lastStartingInB c))
  | SplineFakeStart =>
      let fakeStartingPoint :=
        Geom.sub3 (Geom.scale3 2 (a3 currSegment)) (b3 currSegment) in
      Geom.SubdivideCatmullRomSpline fakeStartingPoint (a3 currSegment)
                                     (b3 currSegment) (b3 (lastStartingInB c))
  | SplineFakeEnd =>
      let fakeEndingPoint :=
        Geom.sub3 (Geom.scale3 2 (b3 currSegment)) (a3 currSegment) in
      Geom.SubdivideCatmullRomSpline (a3 (lastEndingInA c)) (a3 currSegment)
                                     (b3 currSegment) fakeEndingPoint
  end.

(** [Noise::SubdivideSegments]; the three output arrays are passed in and
    returned as (segmentsBegin, midPoints, segmentsEnd). *)
Definition SubdivideSegments (segments segmentsBegin : list Segment3D)
           (midPoints : list (list Point2D)) (segmentsEnd : list Segment3D)
  : list Segment3D * list (list Point2D) * list Segment3D :=
  for_range 0 25 (fun i '(segmentsBegin, midPoints, segmentsEnd) =>
    let midPoint := SegmentMidPoint segments i in
    (set segmentsBegin i
         (mkSegment3D (a3 (get Geom.Segment3D0 segments i)) midPoint),
     set2 midPoints (Z.quot i 5) (Z.rem i 5) (Geom.ProjectionZ midPoint),
     set segmentsEnd i
         (mkSegment3D midPoint (b3 (get Geom.Segment3D0 segments i)))))
    (segmentsBegin, midPoints, segmentsEnd).

(** One of the "find the nearest segment" loops shared by
    [Noise::GenerateSubSegments] and [Noise::ComputeColorWorley]: the state is
    (nearest distance, nearest segment). *)
Definition NearestScan (p : Point2D) (segments : list Segment3D)
           (st : Q * Segment3D) : Q * Segment3D :=
  for_each segments (fun segment '(nearestDist, nearestSegment) =>
    let dist := Geom.distToLineSegment p (Geom.ProjectionZ_seg segment) in
    if Dbl.ltb dist nearestDist then (dist, segment)
    else (nearestDist, nearestSegment)) st.

(** The parameter at which a refined point is connected to its nearest
    segment, lines 260-284 of [Noise::GenerateSubSegments]. *)
Definition ConnectionParameter (p : Point2D) (nearestSegment : Segment3D)
           (nearestSegmentDist : Q) : Q :=
  let u := Geom.pointLineProjection p (Geom.ProjectionZ_seg nearestSegment) in
  let u := Dbl.clamp u 0 1 in
  if Dbl.ltb 0 u && Dbl.ltb u 1 then
    let v := (u + nearestSegmentDist
                  / Geom.length (Geom.ProjectionZ_seg nearestSegment))%Q in
    if Dbl.ltb 1 v then 1%Q else v
  else u.

(** The sub-segment of the refined point (i, j), the body of the loops of
    [Noise::GenerateSubSegments]. *)
Definition SubSegment (points : list (list Point2D))
           (segmentsBegin segmentsEnd : list Segment3D) (i j : Z) : Segment3D :=
  let p := get2 Geom.Point2D0 points i j in
  let '(nearestSegmentDist, nearestSegment) :=
    NearestScan p segmentsEnd
      (NearestScan p segmentsBegin (Dbl.DBL_MAX, Geom.Segment3D0)) in
  let u := ConnectionParameter p nearestSegment nearestSegmentDist in
  let segmentEnd := Geom.lerp nearestSegment u in
  let segmentStart := mkPoint3D (x2 p) (y2 p) (z3 segmentEnd) in
  mkSegment3D segmentStart segmentEnd.

(** [Noise::GenerateSubSegments] *)
Definition GenerateSubSegments (points : list (list Point2D))
           (segmentsBegin segmentsEnd : list Segment3D) : list Segment3D :=
  for_range 1 (5 - 1) (fun i subSegments =>
    for_range 1 (5 - 1) (fun j subSegments =>
      set subSegments (3 * (i - 1) + j - 1)
          (SubSegment points segmentsBegin segmentsEnd i j)) subSegments)
    (replicate 9 Geom.Segment3D0).

(** [Noise::ComputeColorPoint] *)
Definition ComputeColorPoint (x y : Q) (point : Point2D) (radius : Q) : Q :=
  if Dbl.ltb (Geom.dist (mkPoint2D x y) point) radius then 1%Q else 0%Q.

(** [Noise::ComputeColorPoints5] and [Noise::ComputeColorPoints7]; [size] is
    the side of the array. *)
Definition ComputeColorPoints (size : Z) (x y : Q) (points : list (list Point2D))
           (radius : Q) : Q :=
  for_range 0 size (fun i value =>
    for_range 0 size (fun j value =>
      Dbl.max value
              (ComputeColorPoint x y (get2 Geom.Point2D0 points i j) radius))
      value) 0%Q.

Definition ComputeColorPoints5 := ComputeColorPoints 5.
Definition ComputeColorPoints7 := ComputeColorPoints 7.

(** [Noise::ComputeColorSegment9] and [Noise::ComputeColorSegment25], which
    differ in the size of the array only. *)
Definition ComputeColorSegment (x y : Q) (segments : list Segment3D)
           (radius : Q) : Q :=
  for_each segments (fun segment value =>
    let dist :=
      Geom.distToLineSegment (mkPoint2D x y) (Geom.ProjectionZ_seg segment) in
    if Dbl.ltb dist radius then 1%Q else value) 0%Q.

Definition ComputeColorSegment9 := ComputeColorSegment.
Definition ComputeColorSegment25 := ComputeColorSegment.

(** [Noise::ComputeColorGrid] *)
Definition ComputeColorGrid (x y deltaX deltaY radius : Q) : Q :=
  if Dbl.ltb (Dbl.abs (x - Dbl.floor x - deltaX)) radius
     || Dbl.ltb (Dbl.abs (y - Dbl.floor y - deltaY)) radius
  then 1%Q else 0%Q.

(** [Noise::ComputeColor] *)
Definition ComputeColor (n : Noise) (x y : Q) (points midPoints : list (list Point2D))
           (segmentsBegin segmentsEnd : list Segment3D) : Q :=
  let value := 0%Q in
  let value :=
    if m_displayPoints n then
      let value := Dbl.max value (ComputeColorPoints7 x y points (1 # 16)) in
      Dbl.max value (ComputeColorPoints5 x y midPoints (1 # 32))
    else value in
  let value :=
    if m_displaySegments n then
      let value :=
        Dbl.max value (ComputeColorSegment25 x y segmentsBegin (1 # 64)) in
      Dbl.max value (ComputeColorSegment25 x y segmentsEnd (1 # 64))
    else value in
  if m_displayGrid n then
    Dbl.max value (ComputeColorGrid x y 0 0 (1 # 128))
  else value.

(** [Noise::ComputeColorSub] *)
Definition ComputeColorSub (n : Noise) (x y : Q) (points : list (list Point2D))
           (segments : list Segment3D) : Q :=
  let value := 0%Q in
  let value :=
    if m_displayPoints n
    then Dbl.max value (ComputeColorPoints5 x y points (1 # 32))
    else value in
  let value :=
    if m_displaySegments n
    then Dbl.max value (ComputeColorSegment9 x y segments (1 # 128))
    else value in
  if m_displayGrid n then
    Dbl.max value (ComputeColorGrid x y (1 # 2) (1 # 2) (1 # 256))
  else value.

(** The nearest segment found by [Noise::ComputeColorWorley] with its
    distance: the three scans, in the order of the source. *)
Definition WorleyNearest (x y : Q)
           (segmentsBegin segmentsEnd subSegments : list Segment3D)
  : Q * Segment3D :=
  NearestScan (mkPoint2D x y) subSegments
    (NearestScan (mkPoint2D x y) segmentsEnd
       (NearestScan (mkPoint2D x y) segmentsBegin
                    (Dbl.DBL_MAX, Geom.Segment3D0))).

(** [Noise::ComputeColorWorley] *)
Definition ComputeColorWorley (x y : Q)
           (segmentsBegin segmentsEnd subSegments : list Segment3D) : Q :=
  let '(nearestSegmentDistance, nearestSegment) :=
    WorleyNearest x y segmentsBegin segmentsEnd subSegments in
  let elevationA := z3 (a3 nearestSegment) in
  let elevationB := z3 (b3 nearestSegment) in
  let u := Geom.pointLineProjection (mkPoint2D x y)
                                    (Geom.ProjectionZ_seg nearestSegment) in
  let elevation := Geom.lerp_clamp elevationA elevationB u in
  (nearestSegmentDistance + elevation)%Q.

(** [Noise::GetSubQuadrant] *)
Definition GetSubQuadrant (cx cy x y : Q) : Z * Z :=
  let quadrantX := Dbl.to_int (Dbl.floor (2 * (x - cx))) in
  let quadrantY := Dbl.to_int (Dbl.floor (2 * (y - cy))) in
  (quadrantX, quadrantY).

(** The third loop of [Noise::GenerateNeighboringSubPoints]: the sub-points
    whose quadrant is that of a level-1 point are replaced by that point. *)
Definition ReplaceSubPoints (cx cy : Q) (quadrantX quadrantY : Z)
           (points subPoints : list (list Point2D)) : list (list Point2D) :=
  for_range 0 7 (fun i subPoints =>
    for_range 0 7 (fun j subPoints =>
      let '(qX, qY) :=
        GetSubQuadrant cx cy (x2 (get2 Geom.Point2D0 points i j))
                             (y2 (get2 Geom.Point2D0 points i j)) in
      let k := CInt.add (CInt.sub (CInt.div 5 2) quadrantY) qY in
      let l := CInt.add (CInt.sub (CInt.div 5 2) quadrantX) qX in
      if (k >=? 0) && (k <? 5) && (l >=? 0) && (l <? 5)
      then set2 subPoints k l (get2 Geom.Point2D0 points i j)
      else subPoints) subPoints) subPoints.

(** The second loop of [Noise::GenerateNeighboringSubPoints]: the
    coordinates of the sub-points are divided by 2. *)
Definition HalveSubPoints (subPoints : list (list Point2D))
  : list (list Point2D) :=
  for_range 0 5 (fun i subPoints =>
    for_range 0 5 (fun j subPoints =>
      let p := get2 Geom.Point2D0 subPoints i j in
      set2 subPoints i j (mkPoint2D (x2 p / 2) (y2 p / 2))) subPoints)
    subPoints.

(** [Noise::GenerateNeighboringSubPoints] *)
Definition GenerateNeighboringSubPoints (n : Noise) (cx cy x y : Q)
           (points : list (list Point2D)) : list (list Point2D) :=
  let cxInt := Dbl.to_int cx in
  let cyInt := Dbl.to_int cy in
  let '(quadrantX, quadrantY) := GetSubQuadrant cx cy x y in
  let subPoints :=
    GenerateNeighboringPoints5 n (CInt.add (CInt.mul 2 cxInt) quadrantX)
                                 (CInt.add (CInt.mul 2 cyInt) quadrantY) in
  let subPoints := HalveSubPoints subPoints in
  ReplaceSubPoints cx cy quadrantX quadrantY points subPoints.

(** [Noise::evaluate] *)
Definition evaluate (n : Noise) (x y : Q) : Q :=
  let cx := Dbl.floor x in
  let cy := Dbl.floor y in
  let cxInt := Dbl.to_int cx in
  let cyInt := Dbl.to_int cy in
  let points := GenerateNeighboringPoints7 n cxInt cyInt in
  let segments := GenerateSegments n points in
  let '(segmentsBegin, midPoints, segmentsEnd) :=
    SubdivideSegments segments (replicate 25 Geom.Segment3D0)
                      (array2 5 5 Geom.Point2D0) (replicate 25 Geom.Segment3D0) in
  let subPoints := GenerateNeighboringSubPoints n cx cy x y points in
  let subSegments := GenerateSubSegments subPoints segmentsBegin segmentsEnd in
  Dbl.max (ComputeColorWorley x y segmentsBegin segmentsEnd subSegments)
          (Dbl.max (ComputeColor n x y points midPoints segmentsBegin segmentsEnd)
                   (ComputeColorSub n x y subPoints subSegments)).

End Engine.

(** ** A concrete platform and engine

    The inputs at which the theorems are instantiated: a linear congruential
    generator, a table-driven control function, a 4 x 4 cache window,
    identity remapping, and planar helpers computed with a square root
    rounded down to a multiple of 2^-20. *)

Module Scenario.

(** One step of the generator, and a variate a + (b - a) * t with t one of
    0, 1/8, ..., 7/8. *)
Definition lcg (g : Z) : Z := (48271 * g + 11) mod 2147483647.

Definition draw (a b : Q) (g : Z) : Q * Z :=
  let g' := lcg g in (Qred (a + (b - a) * ((g' mod 8) # 8)), g').

(** Heights in hundredths for the cells (column x, row y) of the window
    0..6 x 0..6: a plane rising to the right and downwards with three pits,
    at (1, 1), (1, 3) and (3, 3). *)
Definition height (x y : Z) : Z :=
  if (x =? 1) && (y =? 1) then 10
  else if (x =? 1) && (y =? 3) then 5
  else if (x =? 3) && (y =? 3) then 0
  else if (0 <=? x) && (x <=? 6) && (0 <=? y) && (y <=? 6) then 40 + 3 * x + 5 * y
  else 100.

(** The control function, with values in [-1, 1]: constant on each cell. *)
Definition control (x y : Q) : Q :=
  ((2 * inject_Z (height (Qfloor x) (Qfloor y)) - 100) / 100)%Q.

#[local] Instance platform : Platform := {|
  CACHE_X := 4;
  CACHE_Y := 4;
  RandomGenerator := Z;
  RandomGenerator_seeded := fun seed => seed;
  uniform_real_distribution := draw;
  Perlin := control
|}.

(** The planar helpers of the examples.  The square root is rounded down to
    a multiple of 2^-20; the projection parameter is
    dot(p - a, b - a) / dot(b - a, b - a), taken to be 0 on a segment of
    length zero; the distance to a segment is the distance to its point at
    the clamped projection parameter. *)
Definition sqrt (q : Q) : Q :=
  Qred (Z.sqrt (Qfloor (q * inject_Z (2 ^ 40))) # 2 ^ 20).

Definition dot2 (ux uy vx vy : Q) : Q := (ux * vx + uy * vy)%Q.

Definition dot_ab (s : Segment2D) : Q :=
  dot2 (x2 (b2 s) - x2 (a2 s)) (y2 (b2 s) - y2 (a2 s))
       (x2 (b2 s) - x2 (a2 s)) (y2 (b2 s) - y2 (a2 s)).

Definition segment_length (s : Segment2D) : Q := sqrt (dot_ab s).

Definition point_distance (p q : Point2D) : Q :=
  segment_length (mkSegment2D p q).

Definition projection (p : Point2D) (s : Segment2D) : Q :=
  if Dbl.eqb (dot_ab s) 0 then 0%Q
  else (dot2 (x2 p - x2 (a2 s)) (y2 p - y2 (a2 s))
             (x2 (b2 s) - x2 (a2 s)) (y2 (b2 s) - y2 (a2 s)) / dot_ab s)%Q.

Definition segment_distance (p : Point2D) (s : Segment2D) : Q :=
  let u := Dbl.clamp (projection p s) 0 1 in
  point_distance p
    (mkPoint2D (x2 (a2 s) + u * (x2 (b2 s) - x2 (a2 s)))
               (y2 (a2 s) + u * (y2 (b2 s) - y2 (a2 s)))).

#[local] Instance math2d : Geom.Math2D := {|
  Geom.dist := point_distance;
  Geom.length := segment_length;
  Geom.pointLineProjection := projection;
  Geom.distToLineSegment := segment_distance
|}.

Definition origin : Point2D := mkPoint2D 0 0.
Definition unit : Point2D := mkPoint2D 1 1.

Definition engine : Noise :=
  Noise_new origin unit origin unit 0 (1 # 8) false false false.

(** The local context of a query in cell (3, 3). *)
Definition points : list (list Point2D) := GenerateNeighboringPoints7 engine 3 3.
Definition elevations : list (list Q) := ComputeElevations engine points.
Definition segments : list Segment3D := GenerateSegments engine points.

Definition subdivided : list Segment3D * list (list Point2D) * list Segment3D :=
  SubdivideSegments segments (replicate 25 Geom.Segment3D0)
                    (array2 5 5 Geom.Point2D0) (replicate 25 Geom.Segment3D0).
Definition segmentsBegin : list Segment3D := fst (fst subdivided).
Definition midPoints : list (list Point2D) := snd (fst subdivided).
Definition segmentsEnd : list Segment3D := snd subdivided.

(** The query point: the generated point of cell (3, 3) itself. *)
Definition query : Point2D := get2 Geom.Point2D0 points 3 3.

Definition subPoints : list (list Point2D) :=
  GenerateNeighboringSubPoints engine 3 3 (x2 query) (y2 query) points.
Definition subSegments : list Segment3D :=
  GenerateSubSegments subPoints segmentsBegin segmentsEnd.

End Scenario.

(** ** Notions used in the statements *)

(** A two-dimensional array has [n] rows of [m] elements. *)
Definition shape2 {A : Type} (n m : nat) (arr : list (list A)) : Prop :=
  length arr = n /\ forall i, 0 <= i < Z.of_nat n -> length (get [] arr i) = m.

(** The seed formula in the words of the specification, over the
    mathematical integers. *)
Definition SeedNoise_spec (seed i j : Z) : Z :=
  (541 * i + 79 * j + seed) mod CInt.INT_MAX.

(** No intermediate result of 541 * i + 79 * j + seed leaves [int]. *)
Definition seed_no_overflow (seed i j : Z) : Prop :=
  CInt.in_range (541 * i) /\ CInt.in_range (79 * j) /\
  CInt.in_range (541 * i + 79 * j) /\ CInt.in_range (541 * i + 79 * j + seed).



(** Two engines with the same configuration (all members but the cache). *)
Definition same_configuration (n n' : Noise) : Prop :=
  m_seed n = m_seed n' /\ m_eps n = m_eps n' /\
  m_displayPoints n = m_displayPoints n' /\
  m_displaySegments n = m_displaySegments n' /\
  m_displayGrid n = m_displayGrid n' /\
  m_noiseTopLeft n = m_noiseTopLeft n' /\
  m_noiseBottomRight n = m_noiseBottomRight n' /\
  m_perlinTopLeft n = m_perlinTopLeft n' /\
  m_perlinBottomRight n = m_perlinBottomRight n'.

(** The 3 x 3 neighbourhood of cell (i, j) in the order in which the
    specification scans it: row after row, ascending indices. *)
Definition ScanOrder (i j : Z) : list (Z * Z) :=
  [(i - 1, j - 1); (i - 1, j); (i - 1, j + 1);
   (i, j - 1); (i, j); (i, j + 1);
   (i + 1, j - 1); (i + 1, j); (i + 1, j + 1)].

(** [p] is the first element of the scan at which [f] attains its minimum
    over the scan. *)
Definition FirstMinimum {P : Type} (f : P -> Q) (scan : list P) (p : P) : Prop :=
  exists idx : nat,
    scan !! idx = Some p /\
    forall (idx' : nat) (p' : P), scan !! idx' = Some p' ->
      (f p <= f p')%Q /\ ((idx' < idx)%nat -> (f p < f p')%Q).

(** A segment is zero-length when its two ends compare equal. *)
Definition ZeroLength (s : Segment3D) : Prop :=
  Geom.Point3D_eqb (a3 s) (b3 s) = true.

(** The chain neighbours of a segment in the words of the specification:
    the segments of positive length that end in its start, and those that
    start in its end (and were not already counted as ending in its
    start). *)
Definition Predecessors (segments : list Segment3D) (currSegment : Segment3D)
  : list Segment3D :=
  filter (fun s => negb (Geom.Point3D_eqb (a3 s) (b3 s))
                   && Geom.Point3D_eqb (b3 s) (a3 currSegment) = true)
         segments.

Definition Successors (segments : list Segment3D) (currSegment : Segment3D)
  : list Segment3D :=
  filter (fun s => negb (Geom.Point3D_eqb (a3 s) (b3 s))
                   && negb (Geom.Point3D_eqb (b3 s) (a3 currSegment))
                   && Geom.Point3D_eqb (a3 s) (b3 currSegment) = true)
         segments.


(** What [distToLineSegment] returns for [p] and the planar projection of a
    segment: the distance the scans compare. *)
Definition SegmentDistance {M : Geom.Math2D} (p : Point2D) (s : Segment3D) : Q :=
  Geom.distToLineSegment p (Geom.ProjectionZ_seg s).

(** The position of the refined 5 x 5 neighbourhood addressed by the
    quadrant of the level-1 point (i, j), as the third loop of
    [GenerateNeighboringSubPoints] computes it: (k, l). *)
Definition QuadrantAddress (cx cy : Q) (quadrantX quadrantY : Z)
           (points : list (list Point2D)) (i j : Z) : Z * Z :=
  let '(qX, qY) :=
    GetSubQuadrant cx cy (x2 (get2 Geom.Point2D0 points i j))
                         (y2 (get2 Geom.Point2D0 points i j)) in
  (CInt.add (CInt.sub (CInt.div 5 2) quadrantY) qY,
   CInt.add (CInt.sub (CInt.div 5 2) quadrantX) qX).

(** Every point of the level-1 neighbourhood of the cell of (cx, cy) lies
    in its own cell: the point (i, j) in the cell (cx + j - 3, cy + i - 3). *)
Definition InOwnCells (cx cy : Q) (points : list (list Point2D)) : bool :=
  forallb (fun i =>
    forallb (fun j =>
      (Qfloor (x2 (get2 Geom.Point2D0 points i j)) =? Qfloor cx + j - 3)
      && (Qfloor (y2 (get2 Geom.Point2D0 points i j)) =? Qfloor cy + i - 3))
      (seqZ 0 7)) (seqZ 0 7).

(** * Properties *)

(** ** Loops and arrays *)

Section LoopFacts.
Context {S : Type}.
Implicit Types (body : Z -> S -> S) (s : S).

Lemma for_range_nil lo hi body s :
  hi <= lo -> for_range lo hi body s = s.
Proof. intros Hle. unfold for_range. rewrite seqZ_nil by lia. reflexivity. Qed.

Lemma for_range_cons lo hi body s :
  lo < hi -> for_range lo hi body s = for_range (lo + 1) hi body (body lo s).
Proof.
  intros Hlt. unfold for_range. rewrite seqZ_cons by lia. simpl.
  do 2 f_equal; lia.
Qed.

Lemma for_range_snoc lo hi body s :
  lo <= hi -> for_range lo (hi + 1) body s = body hi (for_range lo hi body s).
Proof.
  intros Hle. unfold for_range.
  replace (hi + 1 - lo) with ((hi - lo) + 1) by lia.
  rewrite seqZ_app by lia. rewrite foldl_app.
  rewrite (seqZ_cons _ 1) by lia. rewrite (seqZ_nil _ (Z.pred 1)) by lia. simpl.
  f_equal. lia.
Qed.

(** The loop rule: an invariant indexed by the loop counter. *)
Lemma for_range_inv (P : Z -> S -> Prop) lo hi body s :
  lo <= hi ->
  P lo s ->
  (forall i st, lo <= i < hi -> P i st -> P (i + 1) (body i st)) ->
  P hi (for_range lo hi body s).
Proof.
  intros Hle H0 Hstep.
  assert (Hgen : forall k : nat, lo + Z.of_nat k <= hi ->
            P (lo + Z.of_nat k) (for_range lo (lo + Z.of_nat k) body s)).
  { induction k as [|k IH]; intros Hk.
    - rewrite Z.add_0_r, for_range_nil by lia. exact H0.
    - replace (lo + Z.of_nat (Datatypes.S k)) with (lo + Z.of_nat k + 1) by lia.
      rewrite for_range_snoc by lia. apply Hstep; [lia|]. apply IH. lia. }
  specialize (Hgen (Z.to_nat (hi - lo))).
  replace (lo + Z.of_nat (Z.to_nat (hi - lo))) with hi in Hgen by lia.
  apply Hgen. lia.
Qed.
Lemma for_range_3 lo hi body s :
  hi = lo + 3 ->
  for_range lo hi body s = body (lo + 2) (body (lo + 1) (body lo s)).
Proof.
  intros ->. rewrite !for_range_cons by lia. rewrite for_range_nil by lia.
  replace (lo + 1 + 1) with (lo + 2) by lia. reflexivity.
Qed.

(** Loops whose bodies agree on the range agree. *)
Lemma for_range_ext lo hi body body' s :
  (forall i st, lo <= i < hi -> body i st = body' i st) ->
  for_range lo hi body s = for_range lo hi body' s.
Proof.
  intros Hext. destruct (Z_le_gt_dec lo hi) as [Hle|Hgt].
  - apply (for_range_inv (fun i st => st = for_range lo i body' s)).
    + exact Hle.
    + rewrite for_range_nil by lia. reflexivity.
    + intros i st Hi ->. rewrite for_range_snoc by lia. apply Hext, Hi.
  - rewrite !for_range_nil by lia. reflexivity.
Qed.

(** A property kept by every iteration is kept by the loop. *)
Lemma for_range_preserves (P : S -> Prop) lo hi body s :
  P s -> (forall i st, P st -> P (body i st)) -> P (for_range lo hi body s).
Proof.
  intros H0 Hstep. unfold for_range.
  generalize (seqZ lo (hi - lo)) s H0.
  induction l as [|i l IH]; intros st Hst; simpl; [exact Hst|].
  apply IH, Hstep, Hst.
Qed.

Lemma for_each_preserves {T : Type} (P : S -> Prop) (arr : list T)
      (body : T -> S -> S) s :
  P s -> (forall e st, P st -> P (body e st)) -> P (for_each arr body s).
Proof.
  intros H0 Hstep. unfold for_each. revert s H0.
  induction arr as [|e l IH]; intros st Hst; simpl; [exact Hst|].
  apply IH, Hstep, Hst.
Qed.
End LoopFacts.

Section ArrayFacts.
Context {A : Type}.
Implicit Types (arr : list A) (d v : A).

Lemma length_set arr i v : length (set arr i v) = length arr.
Proof. unfold set. destruct (i <? 0); [reflexivity | apply length_insert]. Qed.

Lemma get_set_eq d arr i v :
  0 <= i < Z.of_nat (length arr) -> get d (set arr i v) i = v.
Proof.
  intros Hi. unfold get, set.
  destruct (Z.ltb_spec i 0) as [Hneg|_]; [lia|].
  rewrite list_lookup_insert_eq by lia. reflexivity.
Qed.

Lemma get_set_ne d arr i j v : i <> j -> get d (set arr i v) j = get d arr j.
Proof.
  intros Hne. unfold get, set.
  destruct (Z.ltb_spec j 0) as [Hj|Hj]; [reflexivity|].
  destruct (Z.ltb_spec i 0) as [Hi|Hi]; [reflexivity|].
  rewrite list_lookup_insert_ne by lia. reflexivity.
Qed.

Lemma get_replicate d (n : nat) v i :
  0 <= i < Z.of_nat n -> get d (replicate n v) i = v.
Proof.
  intros Hi. unfold get.
  destruct (Z.ltb_spec i 0) as [Hneg|_]; [lia|].
  rewrite lookup_replicate_2 by lia. reflexivity.
Qed.
End ArrayFacts.

Section Array2Facts.
Context {A : Type}.
Implicit Types (arr : list (list A)) (d v : A).

Lemma shape2_array2 (n m : nat) d : shape2 n m (array2 n m d).
Proof.
  split; [apply length_replicate|].
  intros i Hi. unfold array2. rewrite get_replicate by lia.
  apply length_replicate.
Qed.

Lemma get2_set2_eq d arr i j v :
  0 <= i < Z.of_nat (length arr) ->
  0 <= j < Z.of_nat (length (get [] arr i)) ->
  get2 d (set2 arr i j v) i j = v.
Proof.
  intros Hi Hj. unfold get2, set2.
  rewrite get_set_eq by lia. apply get_set_eq. lia.
Qed.

Lemma get_set2_ne arr i j k v :
  i <> k -> get [] (set2 arr i j v) k = get [] arr k.
Proof. intros Hne. unfold set2. apply get_set_ne. exact Hne. Qed.

Lemma length_set2 arr i j v : length (set2 arr i j v) = length arr.
Proof. unfold set2. apply length_set. Qed.

Lemma length_get_set2 arr i j k v :
  length (get [] (set2 arr i j v) k) = length (get [] arr k).
Proof.
  unfold set2. destruct (Z.eq_dec i k) as [->|Hne].
  - destruct (Z_lt_ge_dec k 0) as [Hk|Hk].
    + unfold set at 1. destruct (Z.ltb_spec k 0); [reflexivity | lia].
    + destruct (Z_lt_ge_dec k (Z.of_nat (length arr))) as [Hlt|Hge].
      * rewrite get_set_eq by lia. apply length_set.
      * unfold set at 1. destruct (Z.ltb_spec k 0); [lia|].
        rewrite list_insert_ge by lia. reflexivity.
  - rewrite get_set_ne by exact Hne. reflexivity.
Qed.

Lemma get2_set2_ne d arr i j k l v :
  (i, j) <> (k, l) -> get2 d (set2 arr i j v) k l = get2 d arr k l.
Proof.
  intros Hne. unfold get2, set2.
  destruct (Z.eq_dec i k) as [->|Hik].
  - destruct (Z_lt_ge_dec k 0) as [Hk|Hk].
    + unfold set at 1. destruct (Z.ltb_spec k 0); [reflexivity | lia].
    + destruct (Z_lt_ge_dec k (Z.of_nat (length arr))) as [Hlt|Hge].
      * rewrite get_set_eq by lia. apply get_set_ne. congruence.
      * unfold set at 1. destruct (Z.ltb_spec k 0); [lia|].
        rewrite list_insert_ge by lia. reflexivity.
  - rewrite get_set_ne by exact Hik. reflexivity.
Qed.
Lemma shape2_set2 (n m : nat) arr i j v :
  shape2 n m arr -> shape2 n m (set2 arr i j v).
Proof.
  intros [Hn Hm]. split; [rewrite length_set2; exact Hn|].
  intros k Hk. rewrite length_get_set2. apply Hm. exact Hk.
Qed.

End Array2Facts.

(** ** Machine integers *)

Lemma wrap_in_range z : CInt.in_range z -> CInt.wrap z = z.
Proof.
  unfold CInt.in_range, CInt.INT_MIN, CInt.INT_MAX, CInt.wrap. intros Hz.
  rewrite Z.mod_small by lia. lia.
Qed.

Lemma div_2_in_range z :
  CInt.in_range z -> CInt.div z 2 = Z.quot z 2 /\ CInt.in_range (Z.quot z 2).
Proof.
  intros Hz. assert (Hq : CInt.in_range (Z.quot z 2)).
  { unfold CInt.in_range, CInt.INT_MIN, CInt.INT_MAX in *.
    destruct (Z_lt_ge_dec z 0) as [Hneg|Hpos].
    - replace z with (- (- z)) by lia. rewrite Z.quot_opp_l by lia.
      rewrite Z.quot_div_nonneg by lia.
      pose proof (Z.div_mod (- z) 2 ltac:(lia)) as Hdm.
      pose proof (Z.mod_pos_bound (- z) 2 ltac:(lia)) as Hmb. lia.
    - rewrite Z.quot_div_nonneg by lia.
      pose proof (Z.div_mod z 2 ltac:(lia)) as Hdm.
      pose proof (Z.mod_pos_bound z 2 ltac:(lia)) as Hmb. lia. }
  split; [apply wrap_in_range; exact Hq | exact Hq].
Qed.

(** ** The seed of a cell *)

(** C8, as amended: as long as no intermediate result leaves [int],
    [GenerateSeedNoise(i, j)] is the remainder of 541*i + 79*j + seed by
    INT_MAX truncated toward zero; it is the mathematical mod of the
    specification when that sum is not negative; and with seed 0 the cell
    (0, 0) has seed 0. *)
Theorem GenerateSeedNoise_without_overflow (n : Noise) (i j : Z) :
  seed_no_overflow (m_seed n) i j ->
  GenerateSeedNoise n i j = Z.rem (541 * i + 79 * j + m_seed n) CInt.INT_MAX /\
  (0 <= 541 * i + 79 * j + m_seed n ->
   GenerateSeedNoise n i j = SeedNoise_spec (m_seed n) i j) /\
  (i = 0 -> j = 0 -> m_seed n = 0 -> GenerateSeedNoise n i j = 0).
Proof.
  intros (Hi & Hj & Hij & Hs).
  assert (Hrem : GenerateSeedNoise n i j
                 = Z.rem (541 * i + 79 * j + m_seed n) CInt.INT_MAX).
  { unfold GenerateSeedNoise, CInt.rem, CInt.add, CInt.mul.
    rewrite (wrap_in_range (541 * i)) by exact Hi.
    rewrite (wrap_in_range (79 * j)) by exact Hj.
    rewrite (wrap_in_range (541 * i + 79 * j)) by exact Hij.
    rewrite (wrap_in_range (541 * i + 79 * j + m_seed n)) by exact Hs.
    reflexivity. }
  split; [exact Hrem|]. split.
  - intros Hnonneg. rewrite Hrem. unfold SeedNoise_spec.
    apply Z.rem_mod_nonneg; [exact Hnonneg | reflexivity].
  - intros -> -> Hseed. rewrite Hrem, Hseed. reflexivity.
Qed.

Lemma GenerateSeedNoise_without_overflow_witness :
  seed_no_overflow (m_seed Scenario.engine) 3 (-2) /\
  GenerateSeedNoise Scenario.engine 3 (-2) = 1465.
Proof.
  assert (Hno : seed_no_overflow (m_seed Scenario.engine) 3 (-2)).
  { vm_compute. intuition discriminate. }
  split; [exact Hno|].
  destruct (GenerateSeedNoise_without_overflow Scenario.engine 3 (-2) Hno)
    as [Hrem _].
  rewrite Hrem. vm_compute. reflexivity.
Defined.

(** C8, as stated, fails: at the cell (-1, 0) the sum is negative and the
    code returns -541, not a residue in [0, INT_MAX); at the cell
    (4000000, 0) the product 541 * i leaves [int] and the result differs from
    the formula for either reading of "mod". *)
Lemma GenerateSeedNoise_counterexample :
  (GenerateSeedNoise Scenario.engine (-1) 0 = -541 /\
   SeedNoise_spec (m_seed Scenario.engine) (-1) 0 = 2147483106 /\
   GenerateSeedNoise Scenario.engine (-1) 0
   <> SeedNoise_spec (m_seed Scenario.engine) (-1) 0) /\
  (GenerateSeedNoise Scenario.engine 4000000 0 = -2130967296 /\
   SeedNoise_spec (m_seed Scenario.engine) 4000000 0 = 16516353 /\
   GenerateSeedNoise Scenario.engine 4000000 0
   <> SeedNoise_spec (m_seed Scenario.engine) 4000000 0 /\
   GenerateSeedNoise Scenario.engine 4000000 0
   <> Z.rem (541 * 4000000 + 79 * 0 + m_seed Scenario.engine) CInt.INT_MAX).
Proof. vm_compute. repeat split; (reflexivity || discriminate). Qed.

(** ** The point cache *)

Section CacheFacts.
Context `{Platform} {M : Geom.Math2D}.

Lemma GeneratePoint_same_configuration n n' x y :
  same_configuration n n' -> GeneratePoint n x y = GeneratePoint n' x y.
Proof.
  intros (Hseed & Heps & _). unfold GeneratePoint, GenerateSeedNoise.
  rewrite Hseed, Heps. reflexivity.
Qed.

Lemma same_configuration_refl n : same_configuration n n.
Proof. unfold same_configuration. tauto. Qed.

Lemma same_configuration_with_pointCache n n' c :
  same_configuration n n' -> same_configuration n (with_pointCache n' c).
Proof. intros Hc. exact Hc. Qed.

(** The half-widths of the cache window. *)
Lemma half_window (c : Z) :
  0 <= c <= CInt.INT_MAX ->
  CInt.div c 2 = Z.quot c 2 /\
  CInt.div (CInt.neg c) 2 = - Z.quot c 2 /\
  0 <= 2 * Z.quot c 2 <= c.
Proof.
  intros Hc.
  assert (Hr : CInt.in_range c) by (unfold CInt.in_range, CInt.INT_MIN; lia).
  assert (Hn : CInt.in_range (- c))
    by (unfold CInt.in_range, CInt.INT_MIN, CInt.INT_MAX in *; lia).
  destruct (div_2_in_range c Hr) as [Hd _].
  destruct (div_2_in_range (- c) Hn) as [Hdn _].
  split; [exact Hd|]. split.
  - unfold CInt.neg. rewrite (wrap_in_range (- c)) by exact Hn.
    rewrite Hdn. apply Z.quot_opp_l. lia.
  - rewrite Z.quot_div_nonneg by lia.
    pose proof (Z.div_mod c 2 ltac:(lia)) as Hdm.
    pose proof (Z.mod_pos_bound c 2 ltac:(lia)) as Hmb. lia.
Qed.

Lemma add_half_window (c v : Z) :
  0 <= c <= CInt.INT_MAX -> - Z.quot c 2 <= v < Z.quot c 2 ->
  CInt.add v (Z.quot c 2) = v + Z.quot c 2.
Proof.
  intros Hc Hv. destruct (half_window c Hc) as (_ & _ & Hh).
  apply wrap_in_range.
  unfold CInt.in_range, CInt.INT_MIN, CInt.INT_MAX in *. lia.
Qed.

Hypothesis CACHE_X_int : 0 <= CACHE_X <= CInt.INT_MAX.
Hypothesis CACHE_Y_int : 0 <= CACHE_Y <= CInt.INT_MAX.

(** The inner loop of [InitPointCache] fills row [x] of the window. *)
Lemma InitPointCache_row n0 n x :
  same_configuration n0 n ->
  - Z.quot CACHE_X 2 <= x < Z.quot CACHE_X 2 ->
  length (m_pointCache n) = Z.to_nat CACHE_X ->
  length (get [] (m_pointCache n) (x + Z.quot CACHE_X 2)) = Z.to_nat CACHE_Y ->
  let n' :=
    for_range (- Z.quot CACHE_Y 2) (Z.quot CACHE_Y 2) (fun y n =>
      with_pointCache n
        (set2 (m_pointCache n) (x + Z.quot CACHE_X 2)
              (CInt.add y (Z.quot CACHE_Y 2)) (GeneratePoint n x y))) n in
  same_configuration n0 n' /\
  length (m_pointCache n') = Z.to_nat CACHE_X /\
  (forall k, k <> x + Z.quot CACHE_X 2 ->
     get [] (m_pointCache n') k = get [] (m_pointCache n) k) /\
  (forall y, - Z.quot CACHE_Y 2 <= y < Z.quot CACHE_Y 2 ->
     get2 Geom.Point2D0 (m_pointCache n')
          (x + Z.quot CACHE_X 2) (y + Z.quot CACHE_Y 2)
     = GeneratePoint n0 x y).
Proof.
  destruct (half_window CACHE_X CACHE_X_int) as (_ & _ & HhX).
  destruct (half_window CACHE_Y CACHE_Y_int) as (_ & _ & HhY).
  intros Hcfg Hx Hlen Hrow n'.
  assert (Hinv :
    same_configuration n0 n' /\
    length (m_pointCache n') = Z.to_nat CACHE_X /\
    length (get [] (m_pointCache n') (x + Z.quot CACHE_X 2)) = Z.to_nat CACHE_Y /\
    (forall k, k <> x + Z.quot CACHE_X 2 ->
       get [] (m_pointCache n') k = get [] (m_pointCache n) k) /\
    (forall y', - Z.quot CACHE_Y 2 <= y' < Z.quot CACHE_Y 2 ->
       get2 Geom.Point2D0 (m_pointCache n') (x + Z.quot CACHE_X 2) (y' + Z.quot CACHE_Y 2)
       = GeneratePoint n0 x y')).
  { subst n'.
    apply (for_range_inv (fun y n' =>
      same_configuration n0 n' /\
      length (m_pointCache n') = Z.to_nat CACHE_X /\
      length (get [] (m_pointCache n') (x + Z.quot CACHE_X 2)) = Z.to_nat CACHE_Y /\
      (forall k, k <> x + Z.quot CACHE_X 2 ->
         get [] (m_pointCache n') k = get [] (m_pointCache n) k) /\
      (forall y', - Z.quot CACHE_Y 2 <= y' < y ->
         get2 Geom.Point2D0 (m_pointCache n') (x + Z.quot CACHE_X 2) (y' + Z.quot CACHE_Y 2)
         = GeneratePoint n0 x y'))).
    - lia.
    - repeat split; try assumption; try apply Hcfg. intros; lia.
    - intros y st Hy (Hc & Hl & Hr & Hk & Hdone).
      rewrite (add_half_window CACHE_Y y CACHE_Y_int) by lia.
      cbn [m_pointCache with_pointCache].
      split; [exact Hc|]. split; [rewrite length_set2; exact Hl|].
      split; [rewrite length_get_set2; exact Hr|]. split.
      + intros k Hne. rewrite get_set2_ne by congruence. apply Hk, Hne.
      + intros y' Hy'. destruct (Z.eq_dec y' y) as [->|Hne].
        * rewrite get2_set2_eq by lia.
          symmetry. apply GeneratePoint_same_configuration, Hc.
        * rewrite get2_set2_ne by (intros [=]; lia). apply Hdone. lia. }
  destruct Hinv as (Hc & Hl & _ & Hk & Hdone). auto.
Qed.

(** What [InitPointCache] establishes: every cell of the window is stored
    at its offset from the corner of the window. *)
Lemma InitPointCache_stores n :
  same_configuration n (InitPointCache n) /\
  forall x y,
    - Z.quot CACHE_X 2 <= x < Z.quot CACHE_X 2 ->
    - Z.quot CACHE_Y 2 <= y < Z.quot CACHE_Y 2 ->
    get2 Geom.Point2D0 (m_pointCache (InitPointCache n))
         (x + Z.quot CACHE_X 2) (y + Z.quot CACHE_Y 2)
    = GeneratePoint n x y.
Proof.
  destruct (half_window CACHE_X CACHE_X_int) as (HdX & HnX & HhX).
  destruct (half_window CACHE_Y CACHE_Y_int) as (HdY & HnY & HhY).
  unfold InitPointCache. rewrite HdX, HnX, HdY, HnY.
  match goal with
  | |- context [for_range (- Z.quot CACHE_X 2) (Z.quot CACHE_X 2) ?body ?s0] =>
      pose proof (for_range_inv
        (fun x n' =>
           same_configuration n n' /\
           length (m_pointCache n') = Z.to_nat CACHE_X /\
           forall x' y', - Z.quot CACHE_X 2 <= x' < x -> - Z.quot CACHE_Y 2 <= y' < Z.quot CACHE_Y 2 ->
             get2 Geom.Point2D0 (m_pointCache n') (x' + Z.quot CACHE_X 2) (y' + Z.quot CACHE_Y 2)
             = GeneratePoint n x' y')
        (- Z.quot CACHE_X 2) (Z.quot CACHE_X 2) body s0) as Houter
  end.
  cbv beta in Houter.
  match type of Houter with
  | _ -> _ -> _ -> ?concl => assert (Hgoal : concl)
  end.
  { apply Houter; clear Houter.
    - lia.
    - split; [unfold same_configuration; simpl; tauto|]. split.
      + simpl. apply length_resize.
      + intros; lia.
    - intros x st Hx (Hc & Hl & Hdone).
      rewrite (add_half_window CACHE_X x CACHE_X_int) by lia.
      match goal with
      | |- context [for_range (- Z.quot CACHE_Y 2) (Z.quot CACHE_Y 2) _ ?st1] => set (st' := st1)
      end.
      assert (Hc' : same_configuration n st') by exact Hc.
      assert (Hl' : length (m_pointCache st') = Z.to_nat CACHE_X).
      { subst st'. cbn [m_pointCache with_pointCache].
        rewrite length_set. exact Hl. }
      assert (Hr' : length (get [] (m_pointCache st') (x + Z.quot CACHE_X 2))
                    = Z.to_nat CACHE_Y).
      { subst st'. cbn [m_pointCache with_pointCache].
        rewrite get_set_eq by lia. apply length_resize. }
      destruct (InitPointCache_row n st' x Hc' ltac:(lia) Hl' Hr')
        as (Hc2 & Hl2 & Hk2 & Hrow).
      split; [exact Hc2|]. split; [exact Hl2|].
      intros x' y' Hx' Hy'. destruct (Z.eq_dec x' x) as [->|Hne].
      + apply Hrow. exact Hy'.
      + unfold get2. rewrite Hk2 by lia.
        subst st'. cbn [m_pointCache with_pointCache].
        rewrite get_set_ne by lia. apply Hdone; lia. }
  destruct Hgoal as (Hc & _ & Hdone). split; [exact Hc|].
  intros x y Hx Hy. apply Hdone; assumption.
Qed.

(** Once the cache is initialised, looking a cell up and generating it
    agree. *)
Lemma GeneratePointCached_InitPointCache n x y :
  GeneratePointCached (InitPointCache n) x y
  = GeneratePoint (InitPointCache n) x y.
Proof.
  destruct (InitPointCache_stores n) as [Hcfg Hstored].
  destruct (half_window CACHE_X CACHE_X_int) as (HdX & HnX & HhX).
  destruct (half_window CACHE_Y CACHE_Y_int) as (HdY & HnY & HhY).
  unfold GeneratePointCached. rewrite HdX, HnX, HdY, HnY.
  destruct (Z.geb_spec x (- Z.quot CACHE_X 2)) as [Hx1|Hx1];
    [|reflexivity].
  destruct (Z.ltb_spec x (Z.quot CACHE_X 2)) as [Hx2|Hx2];
    [|reflexivity].
  destruct (Z.geb_spec y (- Z.quot CACHE_Y 2)) as [Hy1|Hy1];
    [|reflexivity].
  destruct (Z.ltb_spec y (Z.quot CACHE_Y 2)) as [Hy2|Hy2];
    [|reflexivity].
  cbn [andb].
  rewrite (add_half_window CACHE_X x CACHE_X_int) by lia.
  rewrite (add_half_window CACHE_Y y CACHE_Y_int) by lia.
  rewrite Hstored by lia.
  apply GeneratePoint_same_configuration, Hcfg.
Qed.

End CacheFacts.

Lemma InitPointCache_shape `{Platform} (n : Noise) :
  0 <= CACHE_X <= CInt.INT_MAX -> 0 <= CACHE_Y <= CInt.INT_MAX ->
  length (m_pointCache (InitPointCache n)) = Z.to_nat CACHE_X /\
  forall x, - Z.quot CACHE_X 2 <= x < Z.quot CACHE_X 2 ->
    length (get [] (m_pointCache (InitPointCache n)) (x + Z.quot CACHE_X 2))
    = Z.to_nat CACHE_Y.
Proof.
  intros HX HY.
  destruct (half_window CACHE_X HX) as (HdX & HnX & HhX).
  destruct (half_window CACHE_Y HY) as (HdY & HnY & HhY).
  unfold InitPointCache. rewrite HdX, HnX, HdY, HnY.
  apply (for_range_inv (fun x0 n' =>
    length (m_pointCache n') = Z.to_nat CACHE_X /\
    forall x, - Z.quot CACHE_X 2 <= x < x0 ->
      length (get [] (m_pointCache n') (x + Z.quot CACHE_X 2))
      = Z.to_nat CACHE_Y)).
  - lia.
  - split; [simpl; apply length_resize | intros; lia].
  - intros x st Hx [Hl Hrows].
    rewrite (add_half_window CACHE_X x HX) by lia.
    apply (for_range_preserves (fun n' =>
      length (m_pointCache n') = Z.to_nat CACHE_X /\
      forall x', - Z.quot CACHE_X 2 <= x' < x + 1 ->
        length (get [] (m_pointCache n') (x' + Z.quot CACHE_X 2))
        = Z.to_nat CACHE_Y)).
    + cbn [m_pointCache with_pointCache]. split; [rewrite length_set; exact Hl|].
      intros x' Hx'. destruct (Z.eq_dec x' x) as [->|Hne].
      * rewrite get_set_eq by lia. apply length_resize.
      * rewrite get_set_ne by lia. apply Hrows. lia.
    + intros y st' [Hl' Hrows']. cbn [m_pointCache with_pointCache].
      split; [rewrite length_set2; exact Hl'|].
      intros x' Hx'. rewrite length_get_set2. apply Hrows', Hx'.
Qed.

(** C4: on an engine built by the constructor, a point generated through
    the cache is the point generated directly, for every cell: inside the
    window (the stored value is returned), outside it, and on its boundary.
    The window size is a non-negative [int]. *)
Theorem GeneratePointCached_is_GeneratePoint `{Platform}
    (noiseTopLeft noiseBottomRight perlinTopLeft perlinBottomRight : Point2D)
    (seed : Z) (eps : Q) (displayPoints displaySegments displayGrid : bool)
    (x y : Z) :
  0 <= CACHE_X <= CInt.INT_MAX ->
  0 <= CACHE_Y <= CInt.INT_MAX ->
  let n := Noise_new noiseTopLeft noiseBottomRight perlinTopLeft
                     perlinBottomRight seed eps
                     displayPoints displaySegments displayGrid in
  GeneratePointCached n x y = GeneratePoint n x y.
Proof.
  intros HX HY n. subst n. unfold Noise_new.
  apply GeneratePointCached_InitPointCache; assumption.
Qed.

Lemma GeneratePointCached_is_GeneratePoint_witness :
  (0 <= @CACHE_X Scenario.platform <= CInt.INT_MAX) /\
  (0 <= @CACHE_Y Scenario.platform <= CInt.INT_MAX) /\
  (* the first cell of the window, and the first cell beyond it *)
  GeneratePointCached (H := Scenario.platform) Scenario.engine (-2) 1
  = GeneratePoint (H := Scenario.platform) Scenario.engine (-2) 1 /\
  GeneratePointCached (H := Scenario.platform) Scenario.engine 2 1
  = GeneratePoint (H := Scenario.platform) Scenario.engine 2 1.
Proof.
  assert (HX : 0 <= @CACHE_X Scenario.platform <= CInt.INT_MAX)
    by (vm_compute; split; discriminate).
  assert (HY : 0 <= @CACHE_Y Scenario.platform <= CInt.INT_MAX)
    by (vm_compute; split; discriminate).
  split; [exact HX|]. split; [exact HY|]. split.
  - exact (GeneratePointCached_is_GeneratePoint (H := Scenario.platform)
             Scenario.origin Scenario.unit Scenario.origin Scenario.unit
             0 (1 # 8) false false false (-2) 1 HX HY).
  - exact (GeneratePointCached_is_GeneratePoint (H := Scenario.platform)
             Scenario.origin Scenario.unit Scenario.origin Scenario.unit
             0 (1 # 8) false false false 2 1 HX HY).
Defined.

(** ** Construction *)




(** ** Jitter *)

Lemma Scenario_uniform_in_range : uniform_in_range (H := Scenario.platform).
Proof.
  intros a b g Hab. cbn [uniform_real_distribution Scenario.platform].
  unfold Scenario.draw. cbn [fst]. rewrite Qred_correct.
  set (k := Scenario.lcg g mod 8).
  assert (Hk : 0 <= k < 8) by (apply Z.mod_pos_bound; lia).
  assert (H0 : (0 <= k # 8)%Q) by (unfold Qle; simpl; lia).
  assert (H1 : (k # 8 < 1)%Q) by (unfold Qlt; simpl; lia).
  split; nra.
Qed.

Lemma GeneratePoint_bounds `{Platform} (n : Noise) (i j : Z) :
  uniform_in_range ->
  (0 < m_eps n)%Q -> (m_eps n < 1 # 2)%Q ->
  ((inject_Z i + m_eps n <= x2 (GeneratePoint n i j))%Q /\
   (x2 (GeneratePoint n i j) <= inject_Z i + 1 - m_eps n)%Q) /\
  ((inject_Z j + m_eps n <= y2 (GeneratePoint n i j))%Q /\
   (y2 (GeneratePoint n i j) <= inject_Z j + 1 - m_eps n)%Q).
Proof.
  intros Hu Heps0 Heps1. unfold GeneratePoint.
  set (g0 := RandomGenerator_seeded (GenerateSeedNoise n i j)).
  assert (Hlt : (m_eps n < 1 - m_eps n)%Q) by lra.
  pose proof (Hu (m_eps n) (1 - m_eps n)%Q g0 Hlt) as [Hx0 Hx1].
  destruct (uniform_real_distribution (m_eps n) (1 - m_eps n) g0)
    as [px g1].
  pose proof (Hu (m_eps n) (1 - m_eps n)%Q g1 Hlt) as [Hy0 Hy1].
  destruct (uniform_real_distribution (m_eps n) (1 - m_eps n) g1)
    as [py g2].
  cbn [fst x2 y2] in *. unfold Dbl.of_int.
  repeat split; lra.
Qed.



(** ** Arrays filled by two nested loops *)

Section FillFacts.
Context {A : Type}.
Implicit Types (d : A).

(** [for i in [0, n) for j in [0, m) arr[i][j] = f(i, j)] *)
Lemma fill2_get d (n m : nat) (f : Z -> Z -> A) (arr0 : list (list A)) :
  shape2 n m arr0 ->
  let arr :=
    for_range 0 (Z.of_nat n) (fun i arr =>
      for_range 0 (Z.of_nat m) (fun j arr => set2 arr i j (f i j)) arr) arr0 in
  shape2 n m arr /\
  forall i j, 0 <= i < Z.of_nat n -> 0 <= j < Z.of_nat m ->
    get2 d arr i j = f i j.
Proof.
  intros Hshape arr. subst arr.
  apply (for_range_inv (fun i arr =>
    shape2 n m arr /\
    forall i' j, 0 <= i' < i -> 0 <= j < Z.of_nat m ->
      get2 d arr i' j = f i' j)).
  - lia.
  - split; [exact Hshape | intros; lia].
  - intros i st Hi [Hsh Hdone].
    assert (Hinner :
      shape2 n m (for_range 0 (Z.of_nat m)
                    (fun j arr => set2 arr i j (f i j)) st) /\
      (forall i' j, 0 <= i' < i -> 0 <= j < Z.of_nat m ->
         get2 d (for_range 0 (Z.of_nat m)
                   (fun j arr => set2 arr i j (f i j)) st) i' j = f i' j) /\
      (forall j, 0 <= j < Z.of_nat m ->
         get2 d (for_range 0 (Z.of_nat m)
                   (fun j arr => set2 arr i j (f i j)) st) i j = f i j)).
    { apply (for_range_inv (fun j arr =>
        shape2 n m arr /\
        (forall i' j', 0 <= i' < i -> 0 <= j' < Z.of_nat m ->
           get2 d arr i' j' = f i' j') /\
        (forall j', 0 <= j' < j -> get2 d arr i j' = f i j'))).
      - lia.
      - split; [exact Hsh|]. split; [exact Hdone | intros; lia].
      - intros j st' Hj (Hsh' & Hprev & Hrow).
        split; [apply shape2_set2, Hsh'|]. split.
        + intros i' j' Hi' Hj'.
          rewrite get2_set2_ne by (intros [=]; lia). apply Hprev; lia.
        + intros j' Hj'. destruct (Z.eq_dec j' j) as [->|Hne].
          * destruct Hsh' as [Hn Hm].
            apply get2_set2_eq; [lia | rewrite Hm; lia].
          * rewrite get2_set2_ne by (intros [=]; lia). apply Hrow. lia. }
    destruct Hinner as (Hsh2 & Hprev & Hrow). split; [exact Hsh2|].
    intros i' j Hi' Hj. destruct (Z.eq_dec i' i) as [->|Hne].
    + apply Hrow, Hj.
    + apply Hprev; lia.
Qed.

(** [for i in [lo, hi) for j in [lo', hi') arr[idx(i, j)] = f(i, j)], the
    index map being injective into the array. *)
Lemma fill_get d (lo hi lo' hi' : Z) (idx : Z -> Z -> Z) (f : Z -> Z -> A)
      (arr0 : list A) :
  lo <= hi -> lo' <= hi' ->
  (forall i j, lo <= i < hi -> lo' <= j < hi' ->
     0 <= idx i j < Z.of_nat (length arr0)) ->
  (forall i j i' j', lo <= i < hi -> lo' <= j < hi' ->
     lo <= i' < hi -> lo' <= j' < hi' ->
     idx i j = idx i' j' -> i = i' /\ j = j') ->
  forall i j, lo <= i < hi -> lo' <= j < hi' ->
    get d (for_range lo hi (fun i arr =>
             for_range lo' hi' (fun j arr => set arr (idx i j) (f i j)) arr)
             arr0) (idx i j)
    = f i j.
Proof.
  intros Hlo Hlo' Hidx Hinj.
  assert (Hall :
    length (for_range lo hi (fun i arr =>
              for_range lo' hi' (fun j arr => set arr (idx i j) (f i j)) arr)
              arr0) = length arr0 /\
    forall i j, lo <= i < hi -> lo' <= j < hi' ->
      get d (for_range lo hi (fun i arr =>
               for_range lo' hi' (fun j arr => set arr (idx i j) (f i j)) arr)
               arr0) (idx i j) = f i j).
  { apply (for_range_inv (fun i0 arr =>
      length arr = length arr0 /\
      forall i j, lo <= i < i0 -> lo' <= j < hi' ->
        get d arr (idx i j) = f i j)).
    - exact Hlo.
    - split; [reflexivity | intros; lia].
    - intros i st Hi [Hlen Hdone].
      assert (Hinner :
        length (for_range lo' hi'
                  (fun j arr => set arr (idx i j) (f i j)) st)
        = length arr0 /\
        (forall i' j, lo <= i' < i -> lo' <= j < hi' ->
           get d (for_range lo' hi'
                    (fun j arr => set arr (idx i j) (f i j)) st) (idx i' j)
           = f i' j) /\
        (forall j, lo' <= j < hi' ->
           get d (for_range lo' hi'
                    (fun j arr => set arr (idx i j) (f i j)) st) (idx i j)
           = f i j)).
      { apply (for_range_inv (fun j0 arr =>
          length arr = length arr0 /\
          (forall i' j, lo <= i' < i -> lo' <= j < hi' ->
             get d arr (idx i' j) = f i' j) /\
          (forall j, lo' <= j < j0 -> get d arr (idx i j) = f i j))).
        - exact Hlo'.
        - split; [exact Hlen|]. split; [exact Hdone | intros; lia].
        - intros j st' Hj (Hlen' & Hprev & Hrow).
          split; [rewrite length_set; exact Hlen'|]. split.
          + intros i' j' Hi' Hj'. rewrite get_set_ne; [apply Hprev; lia|].
            intros Heq. apply Hinj in Heq; lia.
          + intros j' Hj'. destruct (Z.eq_dec j' j) as [->|Hne].
            * apply get_set_eq. rewrite Hlen'. apply Hidx; lia.
            * rewrite get_set_ne; [apply Hrow; lia|].
              intros Heq. apply Hinj in Heq; lia. }
      destruct Hinner as (Hlen2 & Hprev & Hrow).
      split; [exact Hlen2|].
      intros i' j Hi' Hj. destruct (Z.eq_dec i' i) as [->|Hne].
      + apply Hrow, Hj.
      + apply Hprev; lia. }
  destruct Hall as [_ Hget]. exact Hget.
Qed.

End FillFacts.

(** ** Scans that keep the first minimum *)

Lemma ltb_true (a b : Q) : Dbl.ltb a b = true <-> (a < b)%Q.
Proof.
  unfold Dbl.ltb. rewrite negb_true_iff.
  destruct (Qle_bool b a) eqn:E.
  - apply Qle_bool_iff in E. split; [discriminate | intros Hlt; lra].
  - split; [intros _ | reflexivity].
    destruct (Qlt_le_dec a b) as [Hlt|Hle]; [exact Hlt|].
    apply Qle_bool_iff in Hle. congruence.
Qed.

Lemma ltb_false (a b : Q) : Dbl.ltb a b = false <-> (b <= a)%Q.
Proof.
  destruct (Dbl.ltb a b) eqn:E.
  - apply ltb_true in E. split; [discriminate | intros Hle; lra].
  - split; [intros _ | reflexivity].
    destruct (Qlt_le_dec a b) as [Hlt|Hle]; [|exact Hle].
    apply ltb_true in Hlt. congruence.
Qed.

(** A loop that replaces its state whenever the current element is strictly
    below the lowest value so far ends either in its initial state, no
    element being below the initial value, or at the first minimum. *)
Lemma scan_first_minimum {St P : Type} (f : P -> Q) (lowOf : St -> Q)
      (mk : P -> St) (step : St -> P -> St) :
  (forall p, lowOf (mk p) = f p) ->
  (forall st p, step st p = if Dbl.ltb (f p) (lowOf st) then mk p else st) ->
  forall (scan : list P) (init : St),
    (foldl step init scan = init /\
     forall (idx : nat) p, scan !! idx = Some p -> (lowOf init <= f p)%Q) \/
    (exists p, foldl step init scan = mk p /\
               (f p < lowOf init)%Q /\ FirstMinimum f scan p).
Proof.
  intros Hmk Hstep scan init.
  induction scan as [|q scan IH] using rev_ind.
  - left. split; [reflexivity|]. intros idx p Hp. discriminate.
  - rewrite foldl_app. simpl. rewrite Hstep.
    destruct IH as [[Hst Hall] | (p & Hst & Hlow & idx & Hidx & Hmin)];
      rewrite Hst.
    + destruct (Dbl.ltb (f q) (lowOf init)) eqn:E.
      * apply ltb_true in E. right. exists q.
        split; [reflexivity|]. split; [exact E|].
        exists (length scan). split.
        { rewrite lookup_app_r by lia. rewrite Nat.sub_diag. reflexivity. }
        intros idx' p' Hp'. apply lookup_app_Some in Hp'.
        destruct Hp' as [Hp' | [Hge Hp']].
        { specialize (Hall _ _ Hp'). split; [lra | intros _; lra]. }
        { apply list_lookup_singleton_Some in Hp'. destruct Hp' as [_ <-].
          split; [lra | intros Hlt; lia]. }
      * apply ltb_false in E. left. split; [reflexivity|].
        intros idx' p' Hp'. apply lookup_app_Some in Hp'.
        destruct Hp' as [Hp' | [Hge Hp']]; [eapply Hall, Hp'|].
        apply list_lookup_singleton_Some in Hp'. destruct Hp' as [_ <-].
        exact E.
    + rewrite Hmk. pose proof (lookup_lt_Some _ _ _ Hidx) as Hlen.
      destruct (Dbl.ltb (f q) (f p)) eqn:E.
      * apply ltb_true in E. right. exists q.
        split; [reflexivity|]. split; [lra|].
        exists (length scan). split.
        { rewrite lookup_app_r by lia. rewrite Nat.sub_diag. reflexivity. }
        intros idx' p' Hp'. apply lookup_app_Some in Hp'.
        destruct Hp' as [Hp' | [Hge Hp']].
        { destruct (Hmin _ _ Hp') as [Hle _]. split; [lra | intros _; lra]. }
        { apply list_lookup_singleton_Some in Hp'. destruct Hp' as [_ <-].
          split; [lra | intros Hlt; lia]. }
      * apply ltb_false in E. right. exists p.
        split; [reflexivity|]. split; [exact Hlow|].
        exists idx. split; [apply lookup_app_l_Some, Hidx|].
        intros idx' p' Hp'. apply lookup_app_Some in Hp'.
        destruct Hp' as [Hp' | [Hge Hp']]; [apply Hmin, Hp'|].
        apply list_lookup_singleton_Some in Hp'. destruct Hp' as [_ <-].
        split; [exact E | intros Hlt; lia].
Qed.

(** ** Steepest-descent segments *)

(** The two inner loops of [GenerateSegments] visit the neighbourhood in
    the order [ScanOrder]. *)
Lemma LowestNeighbor_scan (elevations : list (list Q)) (i j : Z) :
  LowestNeighbor elevations i j
  = foldl (fun st '(k, l) =>
             let '(lowest, lowestI, lowestJ) := st in
             if Dbl.ltb (get2 0%Q elevations k l) lowest
             then (get2 0%Q elevations k l, k, l)
             else (lowest, lowestI, lowestJ))
          (Dbl.DBL_MAX, i, j) (ScanOrder i j).
Proof.
  unfold LowestNeighbor.
  rewrite (for_range_3 (i - 1) (i + 1 + 1)) by lia. cbv beta.
  rewrite !(for_range_3 (j - 1) (j + 1 + 1)) by lia. cbv beta.
  replace (i - 1 + 1) with i by lia. replace (i - 1 + 2) with (i + 1) by lia.
  replace (j - 1 + 1) with j by lia. replace (j - 1 + 2) with (j + 1) by lia.
  reflexivity.
Qed.

Lemma one_lt_DBL_MAX : (1 < Dbl.DBL_MAX)%Q.
Proof. vm_compute. reflexivity. Qed.

Section SegmentFacts.
Context `{Platform} {M : Geom.Math2D}.

Lemma ComputeElevations_get n points k l :
  0 <= k < 7 -> 0 <= l < 7 ->
  get2 0%Q (ComputeElevations n points) k l
  = Elevation n (get2 Geom.Point2D0 points k l).
Proof.
  intros Hk Hl. unfold ComputeElevations.
  apply (fill2_get 0%Q 7 7
           (fun i j => Elevation n (get2 Geom.Point2D0 points i j))
           (array2 7 7 0%Q) (shape2_array2 7 7 0%Q)); assumption.
Qed.

Lemma Elevation_range n p :
  Perlin_in_range -> (0 <= Elevation n p)%Q /\ (Elevation n p <= 1)%Q.
Proof.
  intros Hp. unfold Elevation.
  match goal with |- context [Perlin ?x ?y] => destruct (Hp x y) as [H0 H1] end.
  split.
  - apply Qle_shift_div_l; [reflexivity | lra].
  - apply Qle_shift_div_r; [reflexivity | lra].
Qed.

Lemma GenerateSegments_get n points i j :
  1 <= i <= 5 -> 1 <= j <= 5 ->
  get Geom.Segment3D0 (GenerateSegments n points) (5 * (i - 1) + j - 1)
  = CellSegment points (ComputeElevations n points) i j.
Proof.
  intros Hi Hj. unfold GenerateSegments.
  apply (fill_get Geom.Segment3D0 1 (7 - 1) 1 (7 - 1)
           (fun i j => 5 * (i - 1) + j - 1)
           (fun i j => CellSegment points (ComputeElevations n points) i j)
           (replicate 25 Geom.Segment3D0)).
  - lia.
  - lia.
  - intros i' j' Hi' Hj'. rewrite length_replicate. lia.
  - intros i1 j1 i2 j2 Hi1 Hj1 Hi2 Hj2 Heq. lia.
  - lia.
  - lia.
Qed.

(** The lowest neighbour is the first minimum of the scan, as soon as some
    elevation of the neighbourhood is below [DBL_MAX]. *)
Lemma LowestNeighbor_first_minimum (elevations : list (list Q)) (i j : Z) :
  (get2 0%Q elevations (i - 1) (j - 1) < Dbl.DBL_MAX)%Q ->
  exists k l,
    LowestNeighbor elevations i j = (get2 0%Q elevations k l, k, l) /\
    FirstMinimum (fun '(k, l) => get2 0%Q elevations k l) (ScanOrder i j) (k, l).
Proof.
  intros Hfirst. rewrite LowestNeighbor_scan.
  destruct (scan_first_minimum
              (fun '(k, l) => get2 0%Q elevations k l)
              (fun st : Q * Z * Z => fst (fst st))
              (fun '(k, l) => (get2 0%Q elevations k l, k, l))
              (fun st '(k, l) =>
                 let '(lowest, lowestI, lowestJ) := st in
                 if Dbl.ltb (get2 0%Q elevations k l) lowest
                 then (get2 0%Q elevations k l, k, l)
                 else (lowest, lowestI, lowestJ))
              ltac:(intros [k l]; reflexivity)
              ltac:(intros [[lowest lowestI] lowestJ] [k l]; reflexivity)
              (ScanOrder i j) (Dbl.DBL_MAX, i, j))
    as [[_ Hall] | ([k l] & Hres & _ & Hmin)].
  - specialize (Hall 0%nat (i - 1, j - 1) eq_refl). cbn [fst] in Hall. lra.
  - exists k, l. split; assumption.
Qed.

End SegmentFacts.

(** C3: for every cell (i, j) of the interior 5 x 5 grid, the segment
    emitted by [GenerateSegments] starts at the cell's own point and ends at
    the first point, in scan order, whose elevation is the minimum of the
    3 x 3 neighbourhood; hence the elevation of its end is at most every
    elevation of the neighbourhood.  The control function has range
    [-1, 1]. *)
Theorem GenerateSegments_steepest_descent `{Platform}
    (n : Noise) (points : list (list Point2D)) (i j : Z) :
  Perlin_in_range -> 1 <= i <= 5 -> 1 <= j <= 5 ->
  let E := fun '(k, l) => get2 0%Q (ComputeElevations n points) k l in
  let P := fun k l => get2 Geom.Point2D0 points k l in
  let segment :=
    get Geom.Segment3D0 (GenerateSegments n points) (5 * (i - 1) + j - 1) in
  exists k l,
    FirstMinimum E (ScanOrder i j) (k, l) /\
    a3 segment = mkPoint3D (x2 (P i j)) (y2 (P i j)) (E (i, j)) /\
    b3 segment = mkPoint3D (x2 (P k l)) (y2 (P k l)) (E (k, l)) /\
    forall k' l', elem_of (k', l') (ScanOrder i j) ->
      (z3 (b3 segment) <= E (k', l'))%Q.
Proof.
  intros Hperlin Hi Hj E P segment. subst segment.
  rewrite GenerateSegments_get by assumption.
  assert (Hfirst :
    (get2 0%Q (ComputeElevations n points) (i - 1) (j - 1) < Dbl.DBL_MAX)%Q).
  { rewrite ComputeElevations_get by lia.
    destruct (Elevation_range n (get2 Geom.Point2D0 points (i - 1) (j - 1))
                Hperlin) as [_ Hle].
    pose proof one_lt_DBL_MAX. lra. }
  destruct (LowestNeighbor_first_minimum (ComputeElevations n points) i j Hfirst)
    as (k & l & Hlow & Hmin).
  exists k, l. unfold CellSegment. rewrite Hlow. cbn [a3 b3 z3].
  split; [exact Hmin|]. split; [reflexivity|]. split; [reflexivity|].
  intros k' l' Hin. apply list_elem_of_lookup in Hin as [idx' Hidx'].
  destruct Hmin as (idx & _ & Hall).
  destruct (Hall idx' (k', l') Hidx') as [Hle _]. exact Hle.
Qed.

Lemma Scenario_Perlin_in_range : Perlin_in_range (H := Scenario.platform).
Proof.
  intros x y. cbn [Perlin Scenario.platform]. unfold Scenario.control.
  assert (Hh : 0 <= Scenario.height (Qfloor x) (Qfloor y) <= 100).
  { unfold Scenario.height.
    repeat match goal with
           | |- context [if ?c then _ else _] => destruct c eqn:?
           end; lia. }
  destruct Hh as [H0 H1]. rewrite Zle_Qle in H0, H1.
  change (inject_Z 0) with 0%Q in H0. change (inject_Z 100) with 100%Q in H1.
  split.
  - apply Qle_shift_div_l; [reflexivity | lra].
  - apply Qle_shift_div_r; [reflexivity | lra].
Qed.

Lemma GenerateSegments_steepest_descent_witness :
  let E := fun '(k, l) => get2 0%Q Scenario.elevations k l in
  let P := fun k l => get2 Geom.Point2D0 Scenario.points k l in
  let segment := get Geom.Segment3D0 Scenario.segments 1 in
  Perlin_in_range (H := Scenario.platform) /\ 1 <= 1 <= 5 /\ 1 <= 2 <= 5 /\
  exists k l,
    FirstMinimum E (ScanOrder 1 2) (k, l) /\
    a3 segment = mkPoint3D (x2 (P 1 2)) (y2 (P 1 2)) (E (1, 2)) /\
    b3 segment = mkPoint3D (x2 (P k l)) (y2 (P k l)) (E (k, l)) /\
    forall k' l', elem_of (k', l') (ScanOrder 1 2) ->
      (z3 (b3 segment) <= E (k', l'))%Q.
Proof.
  intros E P segment.
  split; [exact Scenario_Perlin_in_range|].
  split; [lia|]. split; [lia|].
  exact (GenerateSegments_steepest_descent (H := Scenario.platform)
           Scenario.engine Scenario.points 1 2 Scenario_Perlin_in_range
           ltac:(lia) ltac:(lia)).
Defined.

(** ** Subdivision *)

Lemma Point3D_eqb_true (p q : Point3D) :
  Geom.Point3D_eqb p q = true <->
  (x3 p == x3 q /\ y3 p == y3 q /\ z3 p == z3 q)%Q.
Proof.
  unfold Geom.Point3D_eqb, Dbl.eqb. rewrite !andb_true_iff, !Qeq_bool_iff.
  tauto.
Qed.

Lemma MidPoint_zero_length (s : Segment3D) :
  ZeroLength s ->
  Geom.Point3D_eqb (a3 s) (Geom.MidPoint s) = true /\
  Geom.Point3D_eqb (Geom.MidPoint s) (b3 s) = true.
Proof.
  unfold ZeroLength. rewrite !Point3D_eqb_true. intros (Hx & Hy & Hz).
  unfold Geom.MidPoint. cbn [x3 y3 z3].
  repeat split; unfold Qdiv; change (/ 2)%Q with (1 # 2)%Q; lra.
Qed.

(** The counters of the scan count the chain neighbours. *)
Lemma ScanChain_counts (segments : list Segment3D) (currSegment : Segment3D) :
  numberSegmentEndingInA (ScanChain segments currSegment)
  = Z.of_nat (length (Predecessors segments currSegment)) /\
  numberStartingInB (ScanChain segments currSegment)
  = Z.of_nat (length (Successors segments currSegment)).
Proof.
  unfold ScanChain, for_each, Predecessors, Successors.
  induction segments as [|s segments IH] using rev_ind.
  - split; reflexivity.
  - rewrite foldl_app, !filter_app, !length_app. cbn [foldl].
    destruct IH as [IHa IHb]. rewrite !filter_cons, !filter_nil.
    destruct (Geom.Point3D_eqb (a3 s) (b3 s)); cbn [negb andb].
    + repeat case_decide; try discriminate. cbn [length]. split; lia.
    + destruct (Geom.Point3D_eqb (b3 s) (a3 currSegment)); cbn [negb andb].
      * repeat case_decide; try discriminate; try congruence.
        cbn [numberSegmentEndingInA numberStartingInB length]. split; lia.
      * destruct (Geom.Point3D_eqb (a3 s) (b3 currSegment));
          repeat case_decide; try discriminate; try congruence;
          cbn [numberSegmentEndingInA numberStartingInB length]; split; lia.
Qed.

Lemma ChooseRule_keep (c : ChainScan) :
  ChooseRule c = KeepMidPoint <->
  numberSegmentEndingInA c <> 1 /\ numberStartingInB c <> 1.
Proof.
  unfold ChooseRule.
  destruct (Z.eqb_spec (numberSegmentEndingInA c) 1);
    destruct (Z.eqb_spec (numberStartingInB c) 1); cbn [andb negb];
    split; try discriminate; try tauto; intros [? ?]; congruence.
Qed.

(** What [SubdivideSegments] writes for segment [i]. *)
Lemma SubdivideSegments_get (segments segmentsBegin : list Segment3D)
      (midPoints : list (list Point2D)) (segmentsEnd : list Segment3D) (i : Z) :
  length segmentsBegin = 25%nat -> length segmentsEnd = 25%nat ->
  0 <= i < 25 ->
  let out := SubdivideSegments segments segmentsBegin midPoints segmentsEnd in
  get Geom.Segment3D0 (fst (fst out)) i
  = mkSegment3D (a3 (get Geom.Segment3D0 segments i))
                (SegmentMidPoint segments i) /\
  get Geom.Segment3D0 (snd out) i
  = mkSegment3D (SegmentMidPoint segments i)
                (b3 (get Geom.Segment3D0 segments i)).
Proof.
  intros Hb He Hi out. subst out. unfold SubdivideSegments.
  assert (Hinv :
    (fun i0 (st : list Segment3D * list (list Point2D) * list Segment3D) =>
       length (fst (fst st)) = 25%nat /\ length (snd st) = 25%nat /\
       forall i', 0 <= i' < i0 ->
         get Geom.Segment3D0 (fst (fst st)) i'
         = mkSegment3D (a3 (get Geom.Segment3D0 segments i'))
                       (SegmentMidPoint segments i') /\
         get Geom.Segment3D0 (snd st) i'
         = mkSegment3D (SegmentMidPoint segments i')
                       (b3 (get Geom.Segment3D0 segments i')))
      25 (for_range 0 25
            (fun i '(segmentsBegin, midPoints, segmentsEnd) =>
               let midPoint := SegmentMidPoint segments i in
               (set segmentsBegin i
                    (mkSegment3D (a3 (get Geom.Segment3D0 segments i)) midPoint),
                set2 midPoints (Z.quot i 5) (Z.rem i 5)
                     (Geom.ProjectionZ midPoint),
                set segmentsEnd i
                    (mkSegment3D midPoint (b3 (get Geom.Segment3D0 segments i)))))
            (segmentsBegin, midPoints, segmentsEnd))).
  { apply (for_range_inv
      (fun i0 (st : list Segment3D * list (list Point2D) * list Segment3D) =>
         length (fst (fst st)) = 25%nat /\ length (snd st) = 25%nat /\
         forall i', 0 <= i' < i0 ->
           get Geom.Segment3D0 (fst (fst st)) i'
           = mkSegment3D (a3 (get Geom.Segment3D0 segments i'))
                         (SegmentMidPoint segments i') /\
           get Geom.Segment3D0 (snd st) i'
           = mkSegment3D (SegmentMidPoint segments i')
                         (b3 (get Geom.Segment3D0 segments i')))).
    - lia.
    - cbn [fst snd]. split; [exact Hb|]. split; [exact He | intros; lia].
    - intros k [[sb mp] se] Hk (Hlb & Hle & Hdone). cbn [fst snd] in *.
      split; [rewrite length_set; exact Hlb|].
      split; [rewrite length_set; exact Hle|].
      intros i' Hi'. destruct (Z.eq_dec i' k) as [->|Hne].
      + rewrite !get_set_eq by lia. split; reflexivity.
      + rewrite !get_set_ne by lia. apply Hdone. lia. }
  cbv beta in Hinv. destruct Hinv as (_ & _ & Hall). apply Hall, Hi.
Qed.

(** C1, as amended: for a zero-length input segment no spline is evaluated
    exactly when neither the number of its predecessors nor the number of
    its successors is one; in that case the midpoint is [MidPoint] of the
    segment, it equals the coincident ends, and both emitted halves are
    zero-length. *)
Theorem SubdivideSegments_zero_length
    (segments segmentsBegin : list Segment3D) (midPoints : list (list Point2D))
    (segmentsEnd : list Segment3D) (i : Z) :
  length segmentsBegin = 25%nat -> length segmentsEnd = 25%nat ->
  0 <= i < 25 ->
  let currSegment := get Geom.Segment3D0 segments i in
  let out := SubdivideSegments segments segmentsBegin midPoints segmentsEnd in
  ZeroLength currSegment ->
  (ChooseRule (ScanChain segments currSegment) = KeepMidPoint <->
   length (Predecessors segments currSegment) <> 1%nat /\
   length (Successors segments currSegment) <> 1%nat) /\
  (length (Predecessors segments currSegment) <> 1%nat ->
   length (Successors segments currSegment) <> 1%nat ->
   SegmentMidPoint segments i = Geom.MidPoint currSegment /\
   Geom.Point3D_eqb (a3 currSegment) (SegmentMidPoint segments i) = true /\
   Geom.Point3D_eqb (SegmentMidPoint segments i) (b3 currSegment) = true /\
   ZeroLength (get Geom.Segment3D0 (fst (fst out)) i) /\
   ZeroLength (get Geom.Segment3D0 (snd out) i)).
Proof.
  intros Hb He Hi currSegment out Hzero.
  destruct (ScanChain_counts segments currSegment) as [HnA HnB].
  assert (Hrule :
    ChooseRule (ScanChain segments currSegment) = KeepMidPoint <->
    length (Predecessors segments currSegment) <> 1%nat /\
    length (Successors segments currSegment) <> 1%nat).
  { rewrite ChooseRule_keep, HnA, HnB. lia. }
  split; [exact Hrule|]. intros HA HB.
  assert (Hmid : SegmentMidPoint segments i = Geom.MidPoint currSegment).
  { unfold SegmentMidPoint. fold currSegment.
    rewrite (proj2 Hrule (conj HA HB)). reflexivity. }
  destruct (MidPoint_zero_length currSegment Hzero) as [Ha Hbm].
  destruct (SubdivideSegments_get segments segmentsBegin midPoints segmentsEnd
              i Hb He Hi) as [Hbegin Hend].
  fold out in Hbegin, Hend. fold currSegment in Hbegin, Hend.
  rewrite Hmid. split; [reflexivity|]. split; [exact Ha|].
  split; [exact Hbm|]. unfold ZeroLength.
  rewrite Hbegin, Hend, Hmid. cbn [a3 b3]. split; assumption.
Qed.

Lemma SubdivideSegments_zero_length_witness :
  let currSegment := get Geom.Segment3D0 Scenario.segments 12 in
  ZeroLength currSegment /\
  length (Predecessors Scenario.segments currSegment) = 8%nat /\
  length (Successors Scenario.segments currSegment) = 0%nat /\
  SegmentMidPoint Scenario.segments 12 = Geom.MidPoint currSegment /\
  ZeroLength (get Geom.Segment3D0 Scenario.segmentsBegin 12) /\
  ZeroLength (get Geom.Segment3D0 Scenario.segmentsEnd 12).
Proof.
  intros currSegment.
  assert (Hzero : ZeroLength currSegment) by (vm_compute; reflexivity).
  assert (HA : length (Predecessors Scenario.segments currSegment) = 8%nat)
    by (vm_compute; reflexivity).
  assert (HB : length (Successors Scenario.segments currSegment) = 0%nat)
    by (vm_compute; reflexivity).
  destruct (SubdivideSegments_zero_length
              Scenario.segments (replicate 25 Geom.Segment3D0)
              (array2 5 5 Geom.Point2D0) (replicate 25 Geom.Segment3D0) 12
              eq_refl eq_refl ltac:(lia) Hzero) as [_ Hkeep].
  fold currSegment in Hkeep.
  destruct (Hkeep ltac:(rewrite HA; discriminate)
                  ltac:(rewrite HB; discriminate))
    as (Hmid & _ & _ & Hbegin & Hend).
  repeat split; assumption.
Defined.

(** C1, as stated, fails: in the scenario the segment of index 0 is
    zero-length and has exactly one predecessor; the third branch evaluates
    the spline, the midpoint differs from the ends and neither half is
    zero-length. *)
Lemma SubdivideSegments_zero_length_counterexample :
  let currSegment := get Geom.Segment3D0 Scenario.segments 0 in
  ZeroLength currSegment /\
  ChooseRule (ScanChain Scenario.segments currSegment) = SplineFakeEnd /\
  Geom.Point3D_eqb (a3 currSegment) (SegmentMidPoint Scenario.segments 0)
  = false /\
  ~ ZeroLength (get Geom.Segment3D0 Scenario.segmentsBegin 0) /\
  ~ ZeroLength (get Geom.Segment3D0 Scenario.segmentsEnd 0).
Proof.
  intros currSegment. unfold ZeroLength.
  split; [vm_compute; reflexivity|].
  split; [vm_compute; reflexivity|].
  split; [vm_compute; reflexivity|].
  split; vm_compute; discriminate.
Qed.

(** ** Sub-segments *)




(** The scans find the first segment at minimal distance, unless no
    segment is nearer than the initial distance. *)
Lemma NearestScan_first_minimum {M : Geom.Math2D} (p : Point2D) (segments : list Segment3D)
      (init : Q * Segment3D) :
  (NearestScan p segments init = init /\
   forall (idx : nat) s, segments !! idx = Some s ->
     (fst init <= SegmentDistance p s)%Q) \/
  (exists s, NearestScan p segments init = (SegmentDistance p s, s) /\
             (SegmentDistance p s < fst init)%Q /\
             FirstMinimum (SegmentDistance p) segments s).
Proof.
  unfold NearestScan, for_each.
  apply (scan_first_minimum (SegmentDistance p) fst
           (fun s => (SegmentDistance p s, s))).
  - reflexivity.
  - intros [nearestDist nearestSegment] s. reflexivity.
Qed.

Lemma NearestScan_app {M : Geom.Math2D} (p : Point2D) (segments1 segments2 : list Segment3D)
      (init : Q * Segment3D) :
  NearestScan p segments2 (NearestScan p segments1 init)
  = NearestScan p (segments1 ++ segments2) init.
Proof. unfold NearestScan, for_each. rewrite foldl_app. reflexivity. Qed.



(** ** Quadrant refinement *)

(** The third loop of [GenerateNeighboringSubPoints]: when no two level-1
    points share an address inside the 5 x 5 neighbourhood, every addressed
    position ends up holding its level-1 point. *)
Lemma ReplaceSubPoints_get (cx cy : Q) (quadrantX quadrantY : Z)
      (points subPoints : list (list Point2D)) :
  shape2 5 5 subPoints ->
  (forall i j i' j', 0 <= i < 7 -> 0 <= j < 7 -> 0 <= i' < 7 -> 0 <= j' < 7 ->
     QuadrantAddress cx cy quadrantX quadrantY points i j
     = QuadrantAddress cx cy quadrantX quadrantY points i' j' ->
     i = i' /\ j = j') ->
  forall i j, 0 <= i < 7 -> 0 <= j < 7 ->
    let '(k, l) := QuadrantAddress cx cy quadrantX quadrantY points i j in
    0 <= k < 5 -> 0 <= l < 5 ->
    get2 Geom.Point2D0
         (ReplaceSubPoints cx cy quadrantX quadrantY points subPoints) k l
    = get2 Geom.Point2D0 points i j.
Proof.
  intros Hshape Hinj.
  set (addr := QuadrantAddress cx cy quadrantX quadrantY points) in *.
  set (body := fun (i j : Z) (sp : list (list Point2D)) =>
    if (fst (addr i j) >=? 0) && (fst (addr i j) <? 5)
       && (snd (addr i j) >=? 0) && (snd (addr i j) <? 5)
    then set2 sp (fst (addr i j)) (snd (addr i j))
              (get2 Geom.Point2D0 points i j)
    else sp).
  assert (Hbody :
    ReplaceSubPoints cx cy quadrantX quadrantY points subPoints
    = for_range 0 7 (fun i sp => for_range 0 7 (fun j sp => body i j sp) sp)
                subPoints) by reflexivity.
  rewrite Hbody. clear Hbody.
  set (written := fun (i j : Z) (sp : list (list Point2D)) =>
    0 <= fst (addr i j) < 5 -> 0 <= snd (addr i j) < 5 ->
    get2 Geom.Point2D0 sp (fst (addr i j)) (snd (addr i j))
    = get2 Geom.Point2D0 points i j).
  assert (Hstep : forall i j sp, 0 <= i < 7 -> 0 <= j < 7 -> shape2 5 5 sp ->
    shape2 5 5 (body i j sp) /\ written i j (body i j sp) /\
    forall i' j', 0 <= i' < 7 -> 0 <= j' < 7 -> (i', j') <> (i, j) ->
      written i' j' sp -> written i' j' (body i j sp)).
  { intros i j sp Hi Hj Hsp. unfold body, written.
    destruct (Z.geb_spec (fst (addr i j)) 0) as [Hk0|Hk0];
      destruct (Z.ltb_spec (fst (addr i j)) 5) as [Hk5|Hk5];
      destruct (Z.geb_spec (snd (addr i j)) 0) as [Hl0|Hl0];
      destruct (Z.ltb_spec (snd (addr i j)) 5) as [Hl5|Hl5];
      cbn [andb];
      try (split; [exact Hsp|]; split; [intros; lia | intros; auto]).
    split; [apply shape2_set2, Hsp|]. split.
    - intros _ _. destruct Hsp as [Hn Hm].
      apply get2_set2_eq; [lia | rewrite Hm; lia].
    - intros i' j' Hi' Hj' Hne Hw Hk' Hl'.
      rewrite get2_set2_ne; [apply Hw; assumption|].
      intros Heq. apply Hne.
      assert (Haddr : addr i' j' = addr i j).
      { destruct (addr i' j'), (addr i j). cbn [fst snd] in Heq. congruence. }
      destruct (Hinj i' j' i j Hi' Hj' Hi Hj Haddr) as [-> ->]. reflexivity. }
  assert (Hall :
    shape2 5 5 (for_range 0 7
                  (fun i sp => for_range 0 7 (fun j sp => body i j sp) sp)
                  subPoints) /\
    forall i j, 0 <= i < 7 -> 0 <= j < 7 ->
      written i j (for_range 0 7
                     (fun i sp => for_range 0 7 (fun j sp => body i j sp) sp)
                     subPoints)).
  { apply (for_range_inv (fun i0 sp =>
      shape2 5 5 sp /\
      forall i j, 0 <= i < i0 -> 0 <= j < 7 -> written i j sp)).
    - lia.
    - split; [exact Hshape | intros; lia].
    - intros i sp Hi [Hsp Hdone].
      assert (Hinner :
        shape2 5 5 (for_range 0 7 (fun j sp => body i j sp) sp) /\
        (forall i' j, 0 <= i' < i -> 0 <= j < 7 ->
           written i' j (for_range 0 7 (fun j sp => body i j sp) sp)) /\
        (forall j, 0 <= j < 7 ->
           written i j (for_range 0 7 (fun j sp => body i j sp) sp))).
      { apply (for_range_inv (fun j0 sp' =>
          shape2 5 5 sp' /\
          (forall i' j, 0 <= i' < i -> 0 <= j < 7 -> written i' j sp') /\
          (forall j, 0 <= j < j0 -> written i j sp'))).
        - lia.
        - split; [exact Hsp|]. split; [exact Hdone | intros; lia].
        - intros j sp' Hj (Hsp' & Hprev & Hrow).
          destruct (Hstep i j sp' ltac:(lia) Hj Hsp') as (Hs & Hw & Hkeep).
          split; [exact Hs|]. split.
          + intros i' j' Hi' Hj'. apply Hkeep; [lia | lia | |].
            * intros [=]; lia.
            * apply Hprev; lia.
          + intros j' Hj'. destruct (Z.eq_dec j' j) as [->|Hne];
              [exact Hw|].
            apply Hkeep; [lia | lia | |].
            * intros [=]; lia.
            * apply Hrow; lia. }
      destruct Hinner as (Hs & Hprev & Hrow). split; [exact Hs|].
      intros i' j Hi' Hj. destruct (Z.eq_dec i' i) as [->|Hne].
      + apply Hrow, Hj.
      + apply Hprev; lia. }
  destruct Hall as [_ Hall]. intros i j Hi Hj.
  specialize (Hall i j Hi Hj). unfold written in Hall.
  destruct (addr i j) as [k l]. cbn [fst snd] in Hall. exact Hall.
Qed.

Lemma to_int_floor (q : Q) :
  CInt.in_range (Qfloor q) -> Dbl.to_int (Dbl.floor q) = Qfloor q.
Proof.
  intros Hr. unfold Dbl.to_int, Dbl.floor.
  rewrite Qceiling_Z, Qfloor_Z.
  destruct (Dbl.ltb (inject_Z (Qfloor q)) 0); apply wrap_in_range, Hr.
Qed.

Lemma Qfloor_between (q : Q) (lo hi : Z) :
  (inject_Z lo <= q)%Q -> (q < inject_Z hi)%Q -> lo <= Qfloor q < hi.
Proof.
  intros Hlo Hhi. split.
  - rewrite <- (Qfloor_Z lo). apply Qfloor_resp_le, Hlo.
  - pose proof (Qfloor_le q) as Hfl. rewrite Zlt_Qlt. lra.
Qed.

(** The quadrant coordinate of a coordinate [v] lying in the cell that is
    [d] cells away from the cell of origin [c]: 2 d or 2 d + 1. *)
Lemma quadrant_of_cell (v : Q) (c d : Z) :
  Qfloor v = c + d -> -8 <= d <= 8 ->
  2 * d <= Dbl.to_int (Dbl.floor (2 * (v - inject_Z c))) <= 2 * d + 1.
Proof.
  intros Hv Hd.
  pose proof (Qfloor_le v) as Hlo. pose proof (Qlt_floor v) as Hhi.
  rewrite Hv in Hlo, Hhi. rewrite inject_Z_plus in Hlo.
  repeat rewrite inject_Z_plus in Hhi.
  change (inject_Z 1) with 1%Q in Hhi.
  assert (Hq : 2 * d <= Qfloor (2 * (v - inject_Z c)) < 2 * d + 2).
  { apply Qfloor_between.
    - rewrite inject_Z_mult. change (inject_Z 2) with 2%Q. lra.
    - rewrite inject_Z_plus, inject_Z_mult. change (inject_Z 2) with 2%Q. lra. }
  rewrite to_int_floor; [lia|].
  unfold CInt.in_range, CInt.INT_MIN, CInt.INT_MAX. lia.
Qed.

Lemma InOwnCells_get (cx cy : Q) (points : list (list Point2D)) (i j : Z) :
  InOwnCells cx cy points = true -> 0 <= i < 7 -> 0 <= j < 7 ->
  Qfloor (x2 (get2 Geom.Point2D0 points i j)) = Qfloor cx + j - 3 /\
  Qfloor (y2 (get2 Geom.Point2D0 points i j)) = Qfloor cy + i - 3.
Proof.
  unfold InOwnCells. intros Hall Hi Hj.
  rewrite forallb_forall in Hall.
  assert (Hini : In i (seqZ 0 7))
    by (apply list_elem_of_In, elem_of_seqZ; lia).
  assert (Hinj : In j (seqZ 0 7))
    by (apply list_elem_of_In, elem_of_seqZ; lia).
  specialize (Hall i Hini). rewrite forallb_forall in Hall.
  specialize (Hall j Hinj). apply andb_true_iff in Hall as [Hx Hy].
  split; [apply Z.eqb_eq, Hx | apply Z.eqb_eq, Hy].
Qed.

Lemma small_wrap (z : Z) : -100 <= z <= 100 -> CInt.wrap z = z.
Proof.
  intros Hz. apply wrap_in_range.
  unfold CInt.in_range, CInt.INT_MIN, CInt.INT_MAX. lia.
Qed.

Section RefineFacts.
Context `{Platform} {M : Geom.Math2D}.

Lemma GenerateNeighboringPoints5_shape n cx cy :
  shape2 5 5 (GenerateNeighboringPoints5 n cx cy).
Proof.
  unfold GenerateNeighboringPoints5.
  apply (fill2_get Geom.Point2D0 5 5
           (fun i j => GeneratePointCached n
                         (CInt.sub (CInt.add cx j) (CInt.div 5 2))
                         (CInt.sub (CInt.add cy i) (CInt.div 5 2)))
           (array2 5 5 Geom.Point2D0) (shape2_array2 5 5 Geom.Point2D0)).
Qed.

Lemma HalveSubPoints_shape subPoints :
  shape2 5 5 subPoints -> shape2 5 5 (HalveSubPoints subPoints).
Proof.
  intros Hs. unfold HalveSubPoints.
  apply (for_range_preserves (shape2 5 5)); [exact Hs|].
  intros i st Hst. apply (for_range_preserves (shape2 5 5)); [exact Hst|].
  intros j st' Hst'. apply shape2_set2, Hst'.
Qed.

(** The addresses of the level-1 points of a neighbourhood whose points lie
    in their own cells. *)
Lemma QuadrantAddress_in_own_cells (x y : Q) (points : list (list Point2D))
      (i j : Z) :
  InOwnCells (Dbl.floor x) (Dbl.floor y) points = true ->
  0 <= i < 7 -> 0 <= j < 7 ->
  let '(quadrantX, quadrantY) :=
    GetSubQuadrant (Dbl.floor x) (Dbl.floor y) x y in
  let '(k, l) :=
    QuadrantAddress (Dbl.floor x) (Dbl.floor y) quadrantX quadrantY points i j in
  (0 <= quadrantX <= 1 /\ 0 <= quadrantY <= 1) /\
  (2 * i - 4 - quadrantY <= k <= 2 * i - 3 - quadrantY) /\
  (2 * j - 4 - quadrantX <= l <= 2 * j - 3 - quadrantX).
Proof.
  intros Hcells Hi Hj.
  destruct (InOwnCells_get _ _ points i j Hcells Hi Hj) as [Hx Hy].
  unfold Dbl.floor in Hx, Hy. rewrite Qfloor_Z in Hx, Hy.
  unfold GetSubQuadrant, QuadrantAddress, GetSubQuadrant.
  pose proof (quadrant_of_cell x (Qfloor x) 0 ltac:(lia) ltac:(lia)) as HqX.
  pose proof (quadrant_of_cell y (Qfloor y) 0 ltac:(lia) ltac:(lia)) as HqY.
  pose proof (quadrant_of_cell (x2 (get2 Geom.Point2D0 points i j))
                (Qfloor x) (j - 3) ltac:(lia) ltac:(lia)) as HpX.
  pose proof (quadrant_of_cell (y2 (get2 Geom.Point2D0 points i j))
                (Qfloor y) (i - 3) ltac:(lia) ltac:(lia)) as HpY.
  change (Dbl.floor x) with (inject_Z (Qfloor x)).
  change (Dbl.floor y) with (inject_Z (Qfloor y)).
  set (quadrantX := Dbl.to_int (Dbl.floor (2 * (x - inject_Z (Qfloor x))))) in *.
  set (quadrantY := Dbl.to_int (Dbl.floor (2 * (y - inject_Z (Qfloor y))))) in *.
  set (qX := Dbl.to_int (Dbl.floor (2 * (x2 (get2 Geom.Point2D0 points i j)
                                         - inject_Z (Qfloor x))))) in *.
  set (qY := Dbl.to_int (Dbl.floor (2 * (y2 (get2 Geom.Point2D0 points i j)
                                         - inject_Z (Qfloor y))))) in *.
  change (CInt.div 5 2) with 2. unfold CInt.add, CInt.sub.
  rewrite (small_wrap (2 - quadrantY)) by lia.
  rewrite (small_wrap (2 - quadrantX)) by lia.
  rewrite (small_wrap (2 - quadrantY + qY)) by lia.
  rewrite (small_wrap (2 - quadrantX + qX)) by lia.
  lia.
Qed.

End RefineFacts.

(** C6: when the level-1 points lie in their own cells, every position of
    the refined 5 x 5 neighbourhood whose quadrant address is that of one of
    the 49 level-1 points holds exactly that level-1 point, the same value
    and not a recomputed one. *)
Theorem GenerateNeighboringSubPoints_keeps_level1 `{Platform}
    (n : Noise) (x y : Q) (points : list (list Point2D)) (i j : Z) :
  InOwnCells (Dbl.floor x) (Dbl.floor y) points = true ->
  0 <= i < 7 -> 0 <= j < 7 ->
  let cx := Dbl.floor x in
  let cy := Dbl.floor y in
  let '(quadrantX, quadrantY) := GetSubQuadrant cx cy x y in
  let '(k, l) := QuadrantAddress cx cy quadrantX quadrantY points i j in
  0 <= k < 5 -> 0 <= l < 5 ->
  get2 Geom.Point2D0 (GenerateNeighboringSubPoints n cx cy x y points) k l
  = get2 Geom.Point2D0 points i j.
Proof.
  intros Hcells Hi Hj cx cy. subst cx cy.
  unfold GenerateNeighboringSubPoints.
  assert (Haddr : forall i j, 0 <= i < 7 -> 0 <= j < 7 ->
    let '(quadrantX, quadrantY) :=
      GetSubQuadrant (Dbl.floor x) (Dbl.floor y) x y in
    let '(k, l) :=
      QuadrantAddress (Dbl.floor x) (Dbl.floor y) quadrantX quadrantY
                      points i j in
    (0 <= quadrantX <= 1 /\ 0 <= quadrantY <= 1) /\
    (2 * i - 4 - quadrantY <= k <= 2 * i - 3 - quadrantY) /\
    (2 * j - 4 - quadrantX <= l <= 2 * j - 3 - quadrantX)).
  { intros i' j' Hi' Hj'.
    apply QuadrantAddress_in_own_cells; assumption. }
  destruct (GetSubQuadrant (Dbl.floor x) (Dbl.floor y) x y)
    as [quadrantX quadrantY].
  apply (ReplaceSubPoints_get (Dbl.floor x) (Dbl.floor y) quadrantX quadrantY
           points); try assumption.
  - apply HalveSubPoints_shape, GenerateNeighboringPoints5_shape.
  - intros i1 j1 i2 j2 Hi1 Hj1 Hi2 Hj2 Heq.
    pose proof (Haddr i1 j1 Hi1 Hj1) as H1.
    pose proof (Haddr i2 j2 Hi2 Hj2) as H2.
    rewrite Heq in H1.
    destruct (QuadrantAddress (Dbl.floor x) (Dbl.floor y) quadrantX quadrantY
                              points i2 j2) as [k l].
    lia.
Qed.

Lemma GenerateNeighboringSubPoints_keeps_level1_witness :
  InOwnCells (Dbl.floor (x2 Scenario.query)) (Dbl.floor (y2 Scenario.query))
             Scenario.points = true /\
  GetSubQuadrant (Dbl.floor (x2 Scenario.query)) (Dbl.floor (y2 Scenario.query))
                 (x2 Scenario.query) (y2 Scenario.query) = (1, 1) /\
  QuadrantAddress (Dbl.floor (x2 Scenario.query)) (Dbl.floor (y2 Scenario.query))
                  1 1 Scenario.points 4 3 = (3, 1) /\
  get2 Geom.Point2D0
       (GenerateNeighboringSubPoints (H := Scenario.platform) Scenario.engine
          (Dbl.floor (x2 Scenario.query)) (Dbl.floor (y2 Scenario.query))
          (x2 Scenario.query) (y2 Scenario.query) Scenario.points) 3 1
  = get2 Geom.Point2D0 Scenario.points 4 3.
Proof.
  assert (Hcells :
    InOwnCells (Dbl.floor (x2 Scenario.query)) (Dbl.floor (y2 Scenario.query))
               Scenario.points = true) by (vm_compute; reflexivity).
  assert (Hquad :
    GetSubQuadrant (Dbl.floor (x2 Scenario.query))
                   (Dbl.floor (y2 Scenario.query))
                   (x2 Scenario.query) (y2 Scenario.query) = (1, 1))
    by (vm_compute; reflexivity).
  assert (Haddr :
    QuadrantAddress (Dbl.floor (x2 Scenario.query))
                    (Dbl.floor (y2 Scenario.query))
                    1 1 Scenario.points 4 3 = (3, 1))
    by (vm_compute; reflexivity).
  split; [exact Hcells|]. split; [exact Hquad|]. split; [exact Haddr|].
  pose proof (GenerateNeighboringSubPoints_keeps_level1
                (H := Scenario.platform) Scenario.engine
                (x2 Scenario.query) (y2 Scenario.query) Scenario.points 4 3
                Hcells ltac:(lia) ltac:(lia)) as Hkeep.
  cbv zeta in Hkeep. rewrite Hquad in Hkeep. rewrite Haddr in Hkeep.
  apply Hkeep; lia.
Defined.

(** ** The level-1 neighbourhood of a query *)

Section NeighbourhoodFacts.
Context `{Platform} {M : Geom.Math2D}.

Lemma GenerateNeighboringPoints7_get n cx cy i j :
  0 <= i < 7 -> 0 <= j < 7 ->
  get2 Geom.Point2D0 (GenerateNeighboringPoints7 n cx cy) i j
  = GeneratePointCached n (CInt.sub (CInt.add cx j) (CInt.div 7 2))
                          (CInt.sub (CInt.add cy i) (CInt.div 7 2)).
Proof.
  intros Hi Hj. unfold GenerateNeighboringPoints7.
  apply (fill2_get Geom.Point2D0 7 7
           (fun i j => GeneratePointCached n
                         (CInt.sub (CInt.add cx j) (CInt.div 7 2))
                         (CInt.sub (CInt.add cy i) (CInt.div 7 2)))
           (array2 7 7 Geom.Point2D0) (shape2_array2 7 7 Geom.Point2D0));
    assumption.
Qed.

Lemma neighbour_cell (c d : Z) :
  CInt.INT_MIN + 3 <= c <= CInt.INT_MAX - 6 -> 0 <= d < 7 ->
  CInt.sub (CInt.add c d) (CInt.div 7 2) = c + d - 3.
Proof.
  intros Hc Hd. change (CInt.div 7 2) with 3. unfold CInt.sub, CInt.add.
  rewrite (wrap_in_range (c + d))
    by (unfold CInt.in_range, CInt.INT_MIN, CInt.INT_MAX in *; lia).
  apply wrap_in_range.
  unfold CInt.in_range, CInt.INT_MIN, CInt.INT_MAX in *. lia.
Qed.

(** The level-1 neighbourhood that [evaluate] builds for a query (x, y) has
    each of its points in its own cell: the hypothesis of the boundary
    consistency theorem holds for it. *)
Lemma GenerateNeighboringPoints7_in_own_cells (n0 : Noise) (x y : Q) :
  uniform_in_range ->
  0 <= CACHE_X <= CInt.INT_MAX -> 0 <= CACHE_Y <= CInt.INT_MAX ->
  (0 < m_eps n0)%Q -> (m_eps n0 < 1 # 2)%Q ->
  CInt.INT_MIN + 3 <= Qfloor x <= CInt.INT_MAX - 6 ->
  CInt.INT_MIN + 3 <= Qfloor y <= CInt.INT_MAX - 6 ->
  InOwnCells (Dbl.floor x) (Dbl.floor y)
             (GenerateNeighboringPoints7 (InitPointCache n0)
                (Dbl.to_int (Dbl.floor x)) (Dbl.to_int (Dbl.floor y)))
  = true.
Proof.
  intros Hu HX HY Heps0 Heps1 Hx Hy.
  destruct (InitPointCache_stores HX HY n0) as [(_ & Heps & _) _].
  rewrite Heps in Heps0, Heps1.
  assert (Hxr : CInt.in_range (Qfloor x))
    by (unfold CInt.in_range, CInt.INT_MIN, CInt.INT_MAX in *; lia).
  assert (Hyr : CInt.in_range (Qfloor y))
    by (unfold CInt.in_range, CInt.INT_MIN, CInt.INT_MAX in *; lia).
  rewrite !to_int_floor by assumption.
  unfold InOwnCells, Dbl.floor. rewrite !Qfloor_Z.
  apply forallb_forall. intros i Hini.
  apply list_elem_of_In, elem_of_seqZ in Hini.
  apply forallb_forall. intros j Hinj.
  apply list_elem_of_In, elem_of_seqZ in Hinj.
  rewrite GenerateNeighboringPoints7_get by lia.
  rewrite !neighbour_cell by lia.
  rewrite (GeneratePointCached_InitPointCache HX HY).
  destruct (GeneratePoint_bounds (InitPointCache n0)
              (Qfloor x + j - 3) (Qfloor y + i - 3) Hu Heps0 Heps1)
    as ((Hx0 & Hx1) & (Hy0 & Hy1)).
  apply andb_true_iff. split; apply Z.eqb_eq.
  - assert (Hb : Qfloor x + j - 3
                 <= Qfloor (x2 (GeneratePoint (InitPointCache n0)
                                  (Qfloor x + j - 3) (Qfloor y + i - 3)))
                 < Qfloor x + j - 3 + 1).
    { apply Qfloor_between; [lra|].
      rewrite inject_Z_plus. change (inject_Z 1) with 1%Q. lra. }
    lia.
  - assert (Hb : Qfloor y + i - 3
                 <= Qfloor (y2 (GeneratePoint (InitPointCache n0)
                                  (Qfloor x + j - 3) (Qfloor y + i - 3)))
                 < Qfloor y + i - 3 + 1).
    { apply Qfloor_between; [lra|].
      rewrite inject_Z_plus. change (inject_Z 1) with 1%Q. lra. }
    lia.
Qed.

End NeighbourhoodFacts.

(** ** Determinism *)

Section DeterminismFacts.
Context `{Platform} {M : Geom.Math2D}.

(** The local context of a query is built from the engine through
    [GeneratePointCached] and the configuration only. *)
Lemma GenerateNeighboringPoints7_ext n n' cx cy :
  (forall x y, GeneratePointCached n x y = GeneratePointCached n' x y) ->
  GenerateNeighboringPoints7 n cx cy = GenerateNeighboringPoints7 n' cx cy.
Proof.
  intros Hgen. unfold GenerateNeighboringPoints7.
  apply for_range_ext. intros i st _.
  apply for_range_ext. intros j st' _. rewrite Hgen. reflexivity.
Qed.

Lemma GenerateNeighboringPoints5_ext n n' cx cy :
  (forall x y, GeneratePointCached n x y = GeneratePointCached n' x y) ->
  GenerateNeighboringPoints5 n cx cy = GenerateNeighboringPoints5 n' cx cy.
Proof.
  intros Hgen. unfold GenerateNeighboringPoints5.
  apply for_range_ext. intros i st _.
  apply for_range_ext. intros j st' _. rewrite Hgen. reflexivity.
Qed.

Lemma GenerateSegments_same_configuration n n' points :
  same_configuration n n' ->
  GenerateSegments n points = GenerateSegments n' points.
Proof.
  intros (_ & _ & _ & _ & _ & H1 & H2 & H3 & H4).
  unfold GenerateSegments, ComputeElevations, Elevation.
  rewrite H1, H2, H3, H4. reflexivity.
Qed.

Lemma evaluate_ext n n' x y :
  same_configuration n n' ->
  (forall cx cy, GeneratePointCached n cx cy = GeneratePointCached n' cx cy) ->
  evaluate n x y = evaluate n' x y.
Proof.
  intros Hcfg Hgen. unfold evaluate, GenerateNeighboringSubPoints.
  rewrite (GenerateNeighboringPoints7_ext n n') by exact Hgen.
  rewrite (GenerateSegments_same_configuration n n') by exact Hcfg.
  destruct (GetSubQuadrant (Dbl.floor x) (Dbl.floor y) x y)
    as [quadrantX quadrantY].
  rewrite (GenerateNeighboringPoints5_ext n n') by exact Hgen.
  destruct Hcfg as (_ & _ & Hp & Hs & Hg & _).
  unfold ComputeColor, ComputeColorSub. rewrite Hp, Hs, Hg. reflexivity.
Qed.

End DeterminismFacts.

(** C9: [evaluate] is a function of the configuration and of the query
    coordinates: two initialised engines with the same configuration return
    the same value at the same coordinates, whatever their caches held
    before; in particular so do two engines built by the constructor from
    the same arguments, and two queries of one engine. *)
Theorem evaluate_deterministic `{Platform} {M : Geom.Math2D}
    (n1 n2 : Noise) (x y : Q) :
  0 <= CACHE_X <= CInt.INT_MAX -> 0 <= CACHE_Y <= CInt.INT_MAX ->
  same_configuration n1 n2 ->
  evaluate (InitPointCache n1) x y = evaluate (InitPointCache n2) x y.
Proof.
  intros HX HY Hcfg.
  destruct (InitPointCache_stores HX HY n1) as [Hc1 _].
  destruct (InitPointCache_stores HX HY n2) as [Hc2 _].
  assert (Hcfg' : same_configuration (InitPointCache n1) (InitPointCache n2)).
  { unfold same_configuration in *.
    destruct Hcfg as (A1 & A2 & A3 & A4 & A5 & A6 & A7 & A8 & A9).
    destruct Hc1 as (B1 & B2 & B3 & B4 & B5 & B6 & B7 & B8 & B9).
    destruct Hc2 as (C1 & C2 & C3 & C4 & C5 & C6 & C7 & C8 & C9).
    repeat split; congruence. }
  apply evaluate_ext; [exact Hcfg'|].
  intros cx cy. rewrite !(GeneratePointCached_InitPointCache HX HY).
  apply GeneratePoint_same_configuration, Hcfg'.
Qed.

Lemma evaluate_deterministic_witness :
  let n1 := mkNoise 0 false false false Scenario.origin Scenario.unit
                    Scenario.origin Scenario.unit (1 # 8) [] in
  let n2 := mkNoise 0 false false false Scenario.origin Scenario.unit
                    Scenario.origin Scenario.unit (1 # 8)
                    [[Scenario.unit; Scenario.unit]; []; []; []; [Scenario.unit]] in
  (0 <= @CACHE_X Scenario.platform <= CInt.INT_MAX) /\
  (0 <= @CACHE_Y Scenario.platform <= CInt.INT_MAX) /\
  same_configuration n1 n2 /\
  Scenario.engine = InitPointCache (H := Scenario.platform) n1 /\
  evaluate (H := Scenario.platform) (M := Scenario.math2d) Scenario.engine 2 2
  = evaluate (H := Scenario.platform) (M := Scenario.math2d)
             (InitPointCache (H := Scenario.platform) n2) 2 2.
Proof.
  intros n1 n2.
  assert (HX : 0 <= @CACHE_X Scenario.platform <= CInt.INT_MAX)
    by (vm_compute; split; discriminate).
  assert (HY : 0 <= @CACHE_Y Scenario.platform <= CInt.INT_MAX)
    by (vm_compute; split; discriminate).
  assert (Hcfg : same_configuration n1 n2)
    by (unfold same_configuration; simpl; tauto).
  split; [exact HX|]. split; [exact HY|]. split; [exact Hcfg|].
  split; [reflexivity|].
  exact (evaluate_deterministic (H := Scenario.platform)
           (M := Scenario.math2d) n1 n2 2 2 HX HY Hcfg).
Defined.

(** * Further properties of the engine *)

(** ** The segment graph *)

Lemma ScanOrder_lookup (i j : Z) (idx : nat) (k l : Z) :
  ScanOrder i j !! idx = Some (k, l) ->
  i - 1 <= k <= i + 1 /\ j - 1 <= l <= j + 1.
Proof.
  unfold ScanOrder. intros Hl.
  do 9 (destruct idx as [|idx]; [injection Hl as <- <-; lia|]).
  discriminate.
Qed.

(** [GenerateSegments] returns 25 segments; under a control function of
    range [-1, 1] the segment of every interior cell ends at a point of the
    cell's 3 x 3 neighbourhood, does not climb, and has both elevations in
    [0, 1]. *)
Theorem GenerateSegments_descends `{Platform}
    (n : Noise) (points : list (list Point2D)) (i j : Z) :
  Perlin_in_range -> 1 <= i <= 5 -> 1 <= j <= 5 ->
  let segment :=
    get Geom.Segment3D0 (GenerateSegments n points) (5 * (i - 1) + j - 1) in
  length (GenerateSegments n points) = 25%nat /\
  (exists k l, i - 1 <= k <= i + 1 /\ j - 1 <= l <= j + 1 /\
     Geom.ProjectionZ (b3 segment) = get2 Geom.Point2D0 points k l) /\
  Geom.ProjectionZ (a3 segment) = get2 Geom.Point2D0 points i j /\
  (z3 (b3 segment) <= z3 (a3 segment))%Q /\
  (0 <= z3 (b3 segment))%Q /\ (z3 (a3 segment) <= 1)%Q.
Proof.
  intros Hperlin Hi Hj segment. split.
  { unfold GenerateSegments.
    apply (for_range_preserves (fun arr : list Segment3D => length arr = 25%nat));
      [apply length_replicate|].
    intros i' st Hst.
    apply (for_range_preserves (fun arr : list Segment3D => length arr = 25%nat));
      [exact Hst|].
    intros j' st' Hst'. rewrite length_set. exact Hst'. }
  subst segment. rewrite GenerateSegments_get by assumption.
  assert (Hfirst :
    (get2 0%Q (ComputeElevations n points) (i - 1) (j - 1) < Dbl.DBL_MAX)%Q).
  { rewrite ComputeElevations_get by lia.
    destruct (Elevation_range n (get2 Geom.Point2D0 points (i - 1) (j - 1))
                Hperlin) as [_ Hle].
    pose proof one_lt_DBL_MAX. lra. }
  destruct (LowestNeighbor_first_minimum (ComputeElevations n points) i j Hfirst)
    as (k & l & Hlow & idx & Hidx & Hmin).
  destruct (ScanOrder_lookup i j idx k l Hidx) as [Hk Hl].
  unfold CellSegment. rewrite Hlow. cbn [a3 b3 z3 Geom.ProjectionZ x3 y3].
  split.
  { exists k, l. split; [exact Hk|]. split; [exact Hl|].
    destruct (get2 Geom.Point2D0 points k l). reflexivity. }
  split; [destruct (get2 Geom.Point2D0 points i j); reflexivity|].
  split.
  { destruct (Hmin 4%nat (i, j) eq_refl) as [Hle _]. exact Hle. }
  rewrite !ComputeElevations_get by lia.
  split; apply Elevation_range, Hperlin.
Qed.

Lemma GenerateSegments_descends_witness :
  let segment := get Geom.Segment3D0 Scenario.segments 6 in
  Perlin_in_range (H := Scenario.platform) /\
  length Scenario.segments = 25%nat /\
  (z3 (b3 segment) <= z3 (a3 segment))%Q /\
  (0 <= z3 (b3 segment))%Q /\ (z3 (a3 segment) <= 1)%Q.
Proof.
  intros segment.
  destruct (GenerateSegments_descends (H := Scenario.platform)
              Scenario.engine Scenario.points 2 2 Scenario_Perlin_in_range
              ltac:(lia) ltac:(lia)) as (Hlen & _ & _ & Hdesc & H0 & H1).
  split; [exact Scenario_Perlin_in_range|]. split; [exact Hlen|].
  split; [exact Hdesc|]. split; [exact H0 | exact H1].
Defined.

(** A cell strictly below the four neighbours scanned before it and not
    above the four scanned after it emits the segment from its point to
    itself; a cell with a strictly lower neighbour emits a segment that
    strictly descends, hence of positive length. *)
Theorem GenerateSegments_local_minimum `{Platform}
    (n : Noise) (points : list (list Point2D)) (i j : Z) :
  Perlin_in_range -> 1 <= i <= 5 -> 1 <= j <= 5 ->
  let E := fun '(k, l) => get2 0%Q (ComputeElevations n points) k l in
  let segment :=
    get Geom.Segment3D0 (GenerateSegments n points) (5 * (i - 1) + j - 1) in
  ((forall (idx : nat) p, ScanOrder i j !! idx = Some p ->
      (E (i, j) <= E p)%Q /\ ((idx < 4)%nat -> (E (i, j) < E p)%Q)) ->
   b3 segment = a3 segment) /\
  ((exists (idx : nat) p, ScanOrder i j !! idx = Some p /\ (E p < E (i, j))%Q) ->
   (z3 (b3 segment) < z3 (a3 segment))%Q /\
   Geom.Point3D_eqb (a3 segment) (b3 segment) = false).
Proof.
  intros Hperlin Hi Hj E segment. subst segment.
  rewrite GenerateSegments_get by assumption.
  assert (Hfirst :
    (get2 0%Q (ComputeElevations n points) (i - 1) (j - 1) < Dbl.DBL_MAX)%Q).
  { rewrite ComputeElevations_get by lia.
    destruct (Elevation_range n (get2 Geom.Point2D0 points (i - 1) (j - 1))
                Hperlin) as [_ Hle].
    pose proof one_lt_DBL_MAX. lra. }
  destruct (LowestNeighbor_first_minimum (ComputeElevations n points) i j Hfirst)
    as (k & l & Hlow & idx & Hidx & Hmin).
  subst E. unfold CellSegment. rewrite Hlow. cbn [a3 b3 z3]. split.
  - intros Hcell.
    destruct (Hcell idx (k, l) Hidx) as [Hle Hlt].
    destruct (Hmin 4%nat (i, j) eq_refl) as [Hle' Hlt'].
    cbv beta iota in Hle, Hlt, Hle', Hlt'.
    assert (Hidx4 : idx = 4%nat).
    { destruct (Nat.lt_trichotomy idx 4) as [Hc|[Hc|Hc]]; [|exact Hc|].
      - specialize (Hlt Hc). lra.
      - specialize (Hlt' Hc). lra. }
    subst idx. injection Hidx as <- <-. reflexivity.
  - intros (idx' & p & Hp & Hlower).
    destruct (Hmin idx' p Hp) as [Hle _]. destruct p as [k' l'].
    cbv beta iota in Hle, Hlower.
    assert (Hz : (get2 0%Q (ComputeElevations n points) k l
                  < get2 0%Q (ComputeElevations n points) i j)%Q) by lra.
    split; [exact Hz|].
    unfold Geom.Point3D_eqb, Dbl.eqb. cbn [x3 y3 z3].
    destruct (Qeq_bool (get2 0%Q (ComputeElevations n points) i j)
                       (get2 0%Q (ComputeElevations n points) k l)) eqn:Heq.
    + apply Qeq_bool_iff in Heq. lra.
    + apply andb_false_r.
Qed.

Lemma GenerateSegments_local_minimum_witness :
  let E := fun '(k, l) =>
    get2 0%Q (ComputeElevations (H := Scenario.platform)
                Scenario.engine Scenario.points) k l in
  let segment :=
    get Geom.Segment3D0
        (GenerateSegments (H := Scenario.platform) Scenario.engine Scenario.points)
        (5 * (1 - 1) + 2 - 1) in
  Perlin_in_range (H := Scenario.platform) /\
  (ScanOrder 1 2 !! 3%nat = Some (1, 1) /\ (E (1%Z, 1%Z) < E (1%Z, 2%Z))%Q) /\
  (z3 (b3 segment) < z3 (a3 segment))%Q /\
  Geom.Point3D_eqb (a3 segment) (b3 segment) = false.
Proof.
  intros E segment.
  assert (Hlt : (E (1%Z, 1%Z) < E (1%Z, 2%Z))%Q) by (vm_compute; reflexivity).
  pose proof (GenerateSegments_local_minimum (H := Scenario.platform)
                Scenario.engine Scenario.points 1 2 Scenario_Perlin_in_range
                ltac:(lia) ltac:(lia)) as Hthm.
  cbv zeta in Hthm. destruct Hthm as [_ Hstrict].
  assert (Hex : exists (idx : nat) (p : Z * Z),
            ScanOrder 1 2 !! idx = Some p /\ (E p < E (1%Z, 2%Z))%Q).
  { exists 3%nat, (1, 1). split; [reflexivity | exact Hlt]. }
  destruct (Hstrict Hex) as [Hz Hne].
  split; [exact Scenario_Perlin_in_range|].
  split; [split; [reflexivity | exact Hlt]|].
  split; [exact Hz | exact Hne].
Defined.

(** ** One segment graph for all queries *)

Lemma LowestNeighbor_in_neighbourhood (elevations : list (list Q)) (i j : Z) :
  i - 1 <= snd (fst (LowestNeighbor elevations i j)) <= i + 1 /\
  j - 1 <= snd (LowestNeighbor elevations i j) <= j + 1.
Proof.
  rewrite LowestNeighbor_scan.
  destruct (scan_first_minimum
              (fun '(k, l) => get2 0%Q elevations k l)
              (fun st : Q * Z * Z => fst (fst st))
              (fun '(k, l) => (get2 0%Q elevations k l, k, l))
              (fun st '(k, l) =>
                 let '(lowest, lowestI, lowestJ) := st in
                 if Dbl.ltb (get2 0%Q elevations k l) lowest
                 then (get2 0%Q elevations k l, k, l)
                 else (lowest, lowestI, lowestJ))
              ltac:(intros [k l]; reflexivity)
              ltac:(intros [[lowest lowestI] lowestJ] [k l]; reflexivity)
              (ScanOrder i j) (Dbl.DBL_MAX, i, j))
    as [[Hres _] | ([k l] & Hres & _ & idx & Hidx & _)]; rewrite Hres.
  - cbn [fst snd]. lia.
  - cbn [fst snd]. apply (ScanOrder_lookup i j idx k l Hidx).
Qed.

Lemma lowest_fold_shift (elevations elevations' : list (list Q)) (dy dx : Z)
      (scan : list (Z * Z)) (lowest : Q) (a b : Z) :
  (forall k l, In (k, l) scan ->
     get2 0%Q elevations' k l = get2 0%Q elevations (k + dy) (l + dx)) ->
  foldl (fun st '(k, l) =>
           let '(lowest, lowestI, lowestJ) := st in
           if Dbl.ltb (get2 0%Q elevations k l) lowest
           then (get2 0%Q elevations k l, k, l)
           else (lowest, lowestI, lowestJ))
        (lowest, a + dy, b + dx)
        (map (fun '(k, l) => (k + dy, l + dx)) scan)
  = (fst (fst (foldl (fun st '(k, l) =>
                        let '(lowest, lowestI, lowestJ) := st in
                        if Dbl.ltb (get2 0%Q elevations' k l) lowest
                        then (get2 0%Q elevations' k l, k, l)
                        else (lowest, lowestI, lowestJ))
                     (lowest, a, b) scan)),
     snd (fst (foldl (fun st '(k, l) =>
                        let '(lowest, lowestI, lowestJ) := st in
                        if Dbl.ltb (get2 0%Q elevations' k l) lowest
                        then (get2 0%Q elevations' k l, k, l)
                        else (lowest, lowestI, lowestJ))
                     (lowest, a, b) scan)) + dy,
     snd (foldl (fun st '(k, l) =>
                   let '(lowest, lowestI, lowestJ) := st in
                   if Dbl.ltb (get2 0%Q elevations' k l) lowest
                   then (get2 0%Q elevations' k l, k, l)
                   else (lowest, lowestI, lowestJ))
                (lowest, a, b) scan) + dx).
Proof.
  revert lowest a b.
  induction scan as [|[k l] scan IH]; intros lowest a b Hin.
  - reflexivity.
  - cbn [map foldl]. rewrite <- (Hin k l) by (left; reflexivity).
    destruct (Dbl.ltb (get2 0%Q elevations' k l) lowest);
      apply IH; intros k' l' Hkl; apply Hin; right; exact Hkl.
Qed.

(** The search for the lowest neighbour commutes with a shift of the
    indices. *)
Lemma LowestNeighbor_shift (elevations elevations' : list (list Q))
      (i j dy dx : Z) :
  (forall k l, i - 1 <= k <= i + 1 -> j - 1 <= l <= j + 1 ->
     get2 0%Q elevations' k l = get2 0%Q elevations (k + dy) (l + dx)) ->
  LowestNeighbor elevations (i + dy) (j + dx)
  = (fst (fst (LowestNeighbor elevations' i j)),
     snd (fst (LowestNeighbor elevations' i j)) + dy,
     snd (LowestNeighbor elevations' i j) + dx).
Proof.
  intros Hshift. rewrite !LowestNeighbor_scan.
  assert (Hscan : ScanOrder (i + dy) (j + dx)
                  = map (fun '(k, l) => (k + dy, l + dx)) (ScanOrder i j)).
  { unfold ScanOrder. cbn [map]. repeat (f_equal; try lia). }
  rewrite Hscan. apply lowest_fold_shift.
  intros k l Hkl. apply list_elem_of_In, list_elem_of_lookup in Hkl.
  destruct Hkl as [idx Hidx].
  destruct (ScanOrder_lookup i j idx k l Hidx). apply Hshift; assumption.
Qed.

Lemma GenerateNeighboringPoints7_shift `{Platform} (n : Noise)
      (cx cy dx dy k l : Z) :
  CInt.INT_MIN + 3 <= cx <= CInt.INT_MAX - 6 ->
  CInt.INT_MIN + 3 <= cx + dx <= CInt.INT_MAX - 6 ->
  CInt.INT_MIN + 3 <= cy <= CInt.INT_MAX - 6 ->
  CInt.INT_MIN + 3 <= cy + dy <= CInt.INT_MAX - 6 ->
  0 <= k < 7 -> 0 <= l < 7 -> 0 <= k + dy < 7 -> 0 <= l + dx < 7 ->
  get2 Geom.Point2D0 (GenerateNeighboringPoints7 n (cx + dx) (cy + dy)) k l
  = get2 Geom.Point2D0 (GenerateNeighboringPoints7 n cx cy) (k + dy) (l + dx).
Proof.
  intros Hcx Hcx' Hcy Hcy' Hk Hl Hk' Hl'.
  rewrite !GenerateNeighboringPoints7_get by assumption.
  rewrite !neighbour_cell by assumption.
  f_equal; lia.
Qed.

(** The segment emitted for a grid cell does not depend on the query: the
    window of a query (dx, dy) cells away yields the same segment for the
    cell, as long as the cell is interior to both windows. *)
Theorem GenerateSegments_window_independent `{Platform} (n : Noise)
    (cx cy dx dy i j : Z) :
  CInt.INT_MIN + 3 <= cx <= CInt.INT_MAX - 6 ->
  CInt.INT_MIN + 3 <= cx + dx <= CInt.INT_MAX - 6 ->
  CInt.INT_MIN + 3 <= cy <= CInt.INT_MAX - 6 ->
  CInt.INT_MIN + 3 <= cy + dy <= CInt.INT_MAX - 6 ->
  1 <= i <= 5 -> 1 <= j <= 5 -> 1 <= i + dy <= 5 -> 1 <= j + dx <= 5 ->
  get Geom.Segment3D0
      (GenerateSegments n (GenerateNeighboringPoints7 n (cx + dx) (cy + dy)))
      (5 * (i - 1) + j - 1)
  = get Geom.Segment3D0
        (GenerateSegments n (GenerateNeighboringPoints7 n cx cy))
        (5 * (i + dy - 1) + (j + dx) - 1).
Proof.
  intros Hcx Hcx' Hcy Hcy' Hi Hj Hi' Hj'.
  rewrite !GenerateSegments_get by lia.
  set (P := GenerateNeighboringPoints7 n cx cy).
  set (P' := GenerateNeighboringPoints7 n (cx + dx) (cy + dy)).
  assert (HP : forall k l, i - 1 <= k <= i + 1 -> j - 1 <= l <= j + 1 ->
            get2 Geom.Point2D0 P' k l = get2 Geom.Point2D0 P (k + dy) (l + dx)).
  { intros k l Hk Hl. apply GenerateNeighboringPoints7_shift; lia. }
  assert (HE : forall k l, i - 1 <= k <= i + 1 -> j - 1 <= l <= j + 1 ->
            get2 0%Q (ComputeElevations n P') k l
            = get2 0%Q (ComputeElevations n P) (k + dy) (l + dx)).
  { intros k l Hk Hl. rewrite !ComputeElevations_get by lia.
    rewrite HP by assumption. reflexivity. }
  unfold CellSegment.
  rewrite (LowestNeighbor_shift (ComputeElevations n P) (ComputeElevations n P')
             i j dy dx HE).
  destruct (LowestNeighbor_in_neighbourhood (ComputeElevations n P') i j)
    as [Hk Hl].
  destruct (LowestNeighbor (ComputeElevations n P') i j) as [[e k] l].
  cbn [fst snd] in *.
  rewrite (HP i j) by lia. rewrite (HP k l) by assumption.
  rewrite (HE i j) by lia. reflexivity.
Qed.

Lemma GenerateSegments_window_independent_witness :
  (CInt.INT_MIN + 3 <= 3 <= CInt.INT_MAX - 6) /\
  (CInt.INT_MIN + 3 <= 3 + 1 <= CInt.INT_MAX - 6) /\
  (CInt.INT_MIN + 3 <= 3 + -1 <= CInt.INT_MAX - 6) /\
  get Geom.Segment3D0
      (GenerateSegments (H := Scenario.platform) Scenario.engine
         (GenerateNeighboringPoints7 (H := Scenario.platform) Scenario.engine
            (3 + 1) (3 + -1)))
      (5 * (3 - 1) + 2 - 1)
  = get Geom.Segment3D0
        (GenerateSegments (H := Scenario.platform) Scenario.engine
           (GenerateNeighboringPoints7 (H := Scenario.platform) Scenario.engine
              3 3))
        (5 * (3 + -1 - 1) + (2 + 1) - 1).
Proof.
  assert (H0 : CInt.INT_MIN + 3 <= 3 <= CInt.INT_MAX - 6)
    by (vm_compute; split; discriminate).
  assert (H1 : CInt.INT_MIN + 3 <= 3 + 1 <= CInt.INT_MAX - 6)
    by (vm_compute; split; discriminate).
  assert (H2 : CInt.INT_MIN + 3 <= 3 + -1 <= CInt.INT_MAX - 6)
    by (vm_compute; split; discriminate).
  split; [exact H0|]. split; [exact H1|]. split; [exact H2|].
  exact (GenerateSegments_window_independent (H := Scenario.platform)
           Scenario.engine 3 3 1 (-1) 3 2 H0 H1 H0 H2
           ltac:(lia) ltac:(lia) ltac:(lia) ltac:(lia)).
Defined.

(** ** Subdivision *)

(** Every segment is cut into a begin-half and an end-half that meet: the
    begin-half starts where the segment starts, the end-half ends where it
    ends, the begin-half ends where the end-half starts, and the planar
    projection of that junction is what [midPoints] records at row i / 5,
    column i % 5.  The sizes of the three arrays are kept. *)
Theorem SubdivideSegments_halves
    (segments segmentsBegin : list Segment3D) (midPoints : list (list Point2D))
    (segmentsEnd : list Segment3D) (i : Z) :
  length segmentsBegin = 25%nat -> length segmentsEnd = 25%nat ->
  shape2 5 5 midPoints -> 0 <= i < 25 ->
  let out := SubdivideSegments segments segmentsBegin midPoints segmentsEnd in
  let begin_i := get Geom.Segment3D0 (fst (fst out)) i in
  let end_i := get Geom.Segment3D0 (snd out) i in
  (length (fst (fst out)) = 25%nat /\ length (snd out) = 25%nat /\
   shape2 5 5 (snd (fst out))) /\
  a3 begin_i = a3 (get Geom.Segment3D0 segments i) /\
  b3 end_i = b3 (get Geom.Segment3D0 segments i) /\
  b3 begin_i = a3 end_i /\
  get2 Geom.Point2D0 (snd (fst out)) (Z.quot i 5) (Z.rem i 5)
  = Geom.ProjectionZ (b3 begin_i).
Proof.
  intros Hb He Hm Hi out begin_i end_i.
  destruct (SubdivideSegments_get segments segmentsBegin midPoints segmentsEnd
              i Hb He Hi) as [Hbegin Hend].
  fold out in Hbegin, Hend. fold begin_i in Hbegin. fold end_i in Hend.
  assert (Hinv :
    length (fst (fst out)) = 25%nat /\ length (snd out) = 25%nat /\
    shape2 5 5 (snd (fst out)) /\
    forall i', 0 <= i' < 25 ->
      get2 Geom.Point2D0 (snd (fst out)) (Z.quot i' 5) (Z.rem i' 5)
      = Geom.ProjectionZ (SegmentMidPoint segments i')).
  { subst out. unfold SubdivideSegments.
    apply (for_range_inv
      (fun i0 (st : list Segment3D * list (list Point2D) * list Segment3D) =>
         length (fst (fst st)) = 25%nat /\ length (snd st) = 25%nat /\
         shape2 5 5 (snd (fst st)) /\
         forall i', 0 <= i' < i0 ->
           get2 Geom.Point2D0 (snd (fst st)) (Z.quot i' 5) (Z.rem i' 5)
           = Geom.ProjectionZ (SegmentMidPoint segments i'))).
    - lia.
    - cbn [fst snd]. repeat split; try assumption; try apply Hm. intros; lia.
    - intros k [[sb mp] se] Hk (Hlb & Hle & Hsh & Hdone). cbn [fst snd] in *.
      split; [rewrite length_set; exact Hlb|].
      split; [rewrite length_set; exact Hle|].
      split; [apply shape2_set2, Hsh|].
      assert (Hqr : forall z, 0 <= z < 25 ->
                0 <= Z.quot z 5 < 5 /\ 0 <= Z.rem z 5 < 5 /\
                z = 5 * Z.quot z 5 + Z.rem z 5).
      { intros z Hz. rewrite Z.quot_div_nonneg, Z.rem_mod_nonneg by lia.
        pose proof (Z.div_mod z 5 ltac:(lia)).
        pose proof (Z.mod_pos_bound z 5 ltac:(lia)). lia. }
      intros i' Hi'. destruct (Z.eq_dec i' k) as [->|Hne].
      + destruct Hsh as [Hn Hrow]. destruct (Hqr k ltac:(lia)) as (Hq & Hr & _).
        apply get2_set2_eq; [lia | rewrite Hrow; lia].
      + rewrite get2_set2_ne; [apply Hdone; lia|].
        intros [= Hq Hr].
        destruct (Hqr k ltac:(lia)) as (_ & _ & Hk5).
        destruct (Hqr i' ltac:(lia)) as (_ & _ & Hi5). lia. }
  destruct Hinv as (Hl1 & Hl2 & Hsh & Hmid).
  split; [repeat split; try assumption; apply Hsh|].
  rewrite Hbegin, Hend. cbn [a3 b3].
  split; [reflexivity|]. split; [reflexivity|]. split; [reflexivity|].
  apply Hmid, Hi.
Qed.

Lemma SubdivideSegments_halves_witness :
  let out :=
    SubdivideSegments Scenario.segments (replicate 25 Geom.Segment3D0)
                      (array2 5 5 Geom.Point2D0) (replicate 25 Geom.Segment3D0) in
  let begin_i := get Geom.Segment3D0 (fst (fst out)) 7 in
  let end_i := get Geom.Segment3D0 (snd out) 7 in
  shape2 5 5 (array2 5 5 Geom.Point2D0) /\ 0 <= 7 < 25 /\
  b3 begin_i = a3 end_i /\
  get2 Geom.Point2D0 (snd (fst out)) (Z.quot 7 5) (Z.rem 7 5)
  = Geom.ProjectionZ (b3 begin_i).
Proof.
  intros out begin_i end_i.
  destruct (SubdivideSegments_halves Scenario.segments
              (replicate 25 Geom.Segment3D0) (array2 5 5 Geom.Point2D0)
              (replicate 25 Geom.Segment3D0) 7 eq_refl eq_refl
              (shape2_array2 5 5 Geom.Point2D0) ltac:(lia))
    as (_ & _ & _ & Hjoin & Hmid).
  split; [apply shape2_array2|]. split; [lia|].
  split; [exact Hjoin | exact Hmid].
Defined.

(** The chain scan keeps the last predecessor and the last successor in
    scan order, and counts no segment twice: a segment that both ends in the
    start of the current one and starts in its end is a predecessor only.
    When the scan counts exactly one predecessor (successor), the segment it
    kept is that one. *)
Theorem ScanChain_neighbours (segments : list Segment3D) (currSegment : Segment3D) :
  let c := ScanChain segments currSegment in
  lastEndingInA c
  = List.last (Predecessors segments currSegment) Geom.Segment3D0 /\
  lastStartingInB c
  = List.last (Successors segments currSegment) Geom.Segment3D0 /\
  (numberSegmentEndingInA c = 1 ->
   Predecessors segments currSegment = [lastEndingInA c]) /\
  (numberStartingInB c = 1 ->
   Successors segments currSegment = [lastStartingInB c]) /\
  0 <= numberSegmentEndingInA c /\ 0 <= numberStartingInB c /\
  numberSegmentEndingInA c + numberStartingInB c
  <= Z.of_nat (length (filter
       (fun s => negb (Geom.Point3D_eqb (a3 s) (b3 s)) = true) segments)).
Proof.
  intros c.
  destruct (ScanChain_counts segments currSegment) as [HnA HnB].
  fold c in HnA, HnB.
  assert (Hlast :
    lastEndingInA c
    = List.last (Predecessors segments currSegment) Geom.Segment3D0 /\
    lastStartingInB c
    = List.last (Successors segments currSegment) Geom.Segment3D0 /\
    (length (Predecessors segments currSegment)
     + length (Successors segments currSegment)
     <= length (filter
          (fun s => negb (Geom.Point3D_eqb (a3 s) (b3 s)) = true) segments))%nat).
  { subst c. clear HnA HnB.
    unfold ScanChain, for_each, Predecessors, Successors.
    induction segments as [|s segments IH] using rev_ind.
    - repeat split; reflexivity.
    - rewrite foldl_app, !filter_app, !length_app. cbn [foldl].
      destruct IH as (IHa & IHb & IHc). rewrite !filter_cons, !filter_nil.
      destruct (Geom.Point3D_eqb (a3 s) (b3 s)); cbn [negb andb].
      + repeat case_decide; try discriminate. rewrite !app_nil_r.
        cbn [length]. repeat split; try assumption. lia.
      + destruct (Geom.Point3D_eqb (b3 s) (a3 currSegment)); cbn [negb andb].
        * repeat case_decide; try discriminate; try congruence.
          rewrite !app_nil_r, last_last.
          cbn [lastEndingInA lastStartingInB length].
          repeat split; try assumption. lia.
        * destruct (Geom.Point3D_eqb (a3 s) (b3 currSegment));
            repeat case_decide; try discriminate; try congruence;
            rewrite ?app_nil_r, ?last_last;
            cbn [lastEndingInA lastStartingInB length];
            repeat split; try assumption; lia. }
  destruct Hlast as (Ha & Hb & Hsum).
  assert (Hone : forall l : list Segment3D,
            length l = 1%nat -> l = [List.last l Geom.Segment3D0]).
  { intros [|s [|s' l]] Hl; try discriminate. reflexivity. }
  split; [exact Ha|]. split; [exact Hb|]. split.
  { intros H1. rewrite Ha. apply Hone. lia. }
  split.
  { intros H1. rewrite Hb. apply Hone. lia. }
  split; [lia|]. split; [lia|]. rewrite HnA, HnB. lia.
Qed.

Lemma ScanChain_neighbours_witness :
  let currSegment := get Geom.Segment3D0 Scenario.segments 3 in
  let c := ScanChain Scenario.segments currSegment in
  numberSegmentEndingInA c = 1 /\
  Predecessors Scenario.segments currSegment = [lastEndingInA c].
Proof.
  intros currSegment c.
  assert (H1 : numberSegmentEndingInA c = 1) by (vm_compute; reflexivity).
  destruct (ScanChain_neighbours Scenario.segments currSegment)
    as (_ & _ & Hone & _).
  split; [exact H1 | exact (Hone H1)].
Defined.

(** ** The Worley field *)

Lemma WorleyNearest_scan {M : Geom.Math2D} (x y : Q)
      (segmentsBegin segmentsEnd subSegments : list Segment3D) :
  WorleyNearest x y segmentsBegin segmentsEnd subSegments
  = NearestScan (mkPoint2D x y) (segmentsBegin ++ segmentsEnd ++ subSegments)
                (Dbl.DBL_MAX, Geom.Segment3D0).
Proof.
  unfold WorleyNearest. rewrite !NearestScan_app, app_assoc. reflexivity.
Qed.

(** The nearest segment of [ComputeColorWorley] is the first segment at
    which [distToLineSegment] is minimal over the level-1 begin-halves, the
    level-1 end-halves and the level-2 sub-segments, in this order, as soon
    as one of them is nearer than [DBL_MAX]; the distance kept is the
    distance of that segment, and [distToLineSegment] is smaller at no
    segment of the three arrays. *)
Theorem WorleyNearest_minimal {M : Geom.Math2D} (x y : Q)
    (segmentsBegin segmentsEnd subSegments : list Segment3D) :
  let p := mkPoint2D x y in
  let all := segmentsBegin ++ segmentsEnd ++ subSegments in
  let nearest := WorleyNearest x y segmentsBegin segmentsEnd subSegments in
  (exists s, elem_of s all /\ (SegmentDistance p s < Dbl.DBL_MAX)%Q) ->
  FirstMinimum (SegmentDistance p) all (snd nearest) /\
  elem_of (snd nearest) all /\
  fst nearest = SegmentDistance p (snd nearest) /\
  forall s, elem_of s all -> (fst nearest <= SegmentDistance p s)%Q.
Proof.
  intros p all nearest (s0 & Hin0 & Hlt0). subst nearest.
  rewrite WorleyNearest_scan. fold p all.
  destruct (NearestScan_first_minimum p all (Dbl.DBL_MAX, Geom.Segment3D0))
    as [[_ Hall] | (s & Hres & _ & Hmin)].
  - apply list_elem_of_lookup in Hin0 as [idx Hidx].
    specialize (Hall idx s0 Hidx). cbn [fst] in Hall. lra.
  - rewrite Hres. cbn [fst snd]. split; [exact Hmin|].
    destruct Hmin as (idx & Hidx & Hmin).
    split; [apply list_elem_of_lookup; exists idx; exact Hidx|].
    split; [reflexivity|].
    intros s' Hin'. apply list_elem_of_lookup in Hin' as [idx' Hidx'].
    destruct (Hmin idx' s' Hidx') as [Hle _]. exact Hle.
Qed.

Lemma WorleyNearest_minimal_witness :
  let p := mkPoint2D (7 # 2) (237 # 64) in
  let all := Scenario.segmentsBegin ++ Scenario.segmentsEnd
             ++ Scenario.subSegments in
  let nearest :=
    WorleyNearest (M := Scenario.math2d) (7 # 2) (237 # 64)
                  Scenario.segmentsBegin Scenario.segmentsEnd
                  Scenario.subSegments in
  (exists s, elem_of s all /\
     (SegmentDistance (M := Scenario.math2d) p s < Dbl.DBL_MAX)%Q) /\
  (* the end-half of segment 11, which runs along y = 59/16 *)
  snd nearest = get Geom.Segment3D0 Scenario.segmentsEnd 11 /\
  (fst nearest == 1 # 64)%Q /\
  forall s, elem_of s all ->
    (fst nearest <= SegmentDistance (M := Scenario.math2d) p s)%Q.
Proof.
  intros p all nearest.
  assert (Hex : exists s, elem_of s all /\
            (SegmentDistance (M := Scenario.math2d) p s < Dbl.DBL_MAX)%Q).
  { exists (get Geom.Segment3D0 Scenario.segmentsBegin 0). split.
    - apply list_elem_of_lookup. exists 0%nat. vm_compute. reflexivity.
    - vm_compute. reflexivity. }
  split; [exact Hex|].
  split; [vm_compute; reflexivity|].
  split; [vm_compute; reflexivity|].
  exact (proj2 (proj2 (proj2
           (WorleyNearest_minimal (M := Scenario.math2d) (7 # 2) (237 # 64)
              Scenario.segmentsBegin Scenario.segmentsEnd
              Scenario.subSegments Hex)))).
Defined.

(** ** The overlays *)

Lemma max_bit (a b : Q) :
  (a = 0%Q \/ a = 1%Q) -> (b = 0%Q \/ b = 1%Q) ->
  (Dbl.max a b = 1%Q /\ (a = 1%Q \/ b = 1%Q)) \/
  (Dbl.max a b = 0%Q /\ a = 0%Q /\ b = 0%Q).
Proof. intros [-> | ->] [-> | ->]; vm_compute; tauto. Qed.

(** [ComputeColorSegment9] and [ComputeColorSegment25] return 1 when
    [distToLineSegment] is below [radius] at some segment of the array, and
    0 when it is at none. *)
Theorem ComputeColorSegment_marks {M : Geom.Math2D} (x y : Q) (segments : list Segment3D)
    (radius : Q) :
  let p := mkPoint2D x y in
  (ComputeColorSegment x y segments radius = 1%Q /\
   exists s, elem_of s segments /\ (SegmentDistance p s < radius)%Q) \/
  (ComputeColorSegment x y segments radius = 0%Q /\
   forall s, elem_of s segments -> (radius <= SegmentDistance p s)%Q).
Proof.
  intros p. unfold ComputeColorSegment, for_each.
  induction segments as [|s segments IH] using rev_ind.
  - right. split; [reflexivity|]. intros s Hs. inversion Hs.
  - rewrite foldl_app. cbn [foldl]. fold p.
    change (Geom.distToLineSegment p (Geom.ProjectionZ_seg s))
      with (SegmentDistance p s).
    destruct (Dbl.ltb (SegmentDistance p s) radius) eqn:E.
    + apply ltb_true in E. left. split; [reflexivity|].
      exists s. split; [apply elem_of_app; right; constructor | exact E].
    + apply ltb_false in E.
      destruct IH as [[H1 (s' & Hin & Hlt)] | [H0 Hall]].
      * left. split; [exact H1|]. exists s'.
        split; [apply elem_of_app; left; exact Hin | exact Hlt].
      * right. split; [exact H0|]. intros s' Hin.
        apply elem_of_app in Hin as [Hin | Hin]; [apply Hall, Hin|].
        apply list_elem_of_singleton in Hin as ->. exact E.
Qed.

(** [ComputeColorPoints5] and [ComputeColorPoints7] return 1 when [dist]
    from the query is below [radius] at some point of the array, and 0 when
    it is at none. *)
Theorem ComputeColorPoints_marks {M : Geom.Math2D} (size : Z) (x y : Q)
    (points : list (list Point2D)) (radius : Q) :
  0 <= size ->
  let near := fun i j =>
    (Geom.dist (mkPoint2D x y) (get2 Geom.Point2D0 points i j) < radius)%Q in
  (ComputeColorPoints size x y points radius = 1%Q /\
   exists i j, 0 <= i < size /\ 0 <= j < size /\ near i j) \/
  (ComputeColorPoints size x y points radius = 0%Q /\
   forall i j, 0 <= i < size -> 0 <= j < size -> ~ near i j).
Proof.
  intros Hsize near. unfold ComputeColorPoints.
  assert (Hpoint : forall i j,
    (ComputeColorPoint x y (get2 Geom.Point2D0 points i j) radius = 1%Q
     /\ near i j) \/
    (ComputeColorPoint x y (get2 Geom.Point2D0 points i j) radius = 0%Q
     /\ ~ near i j)).
  { intros i j. unfold ComputeColorPoint, near.
    destruct (Dbl.ltb _ radius) eqn:E.
    - apply ltb_true in E. left. split; [reflexivity | exact E].
    - apply ltb_false in E. right. split; [reflexivity | lra]. }
  apply (for_range_inv (fun i0 value =>
    (value = 1%Q /\ exists i j, 0 <= i < i0 /\ 0 <= j < size /\ near i j) \/
    (value = 0%Q /\ forall i j, 0 <= i < i0 -> 0 <= j < size -> ~ near i j))).
  - exact Hsize.
  - right. split; [reflexivity | intros; lia].
  - intros i value Hi Hout.
    assert (Hinner :
      (fun j0 v =>
         (v = 1%Q /\ exists i' j, (0 <= i' < i \/ (i' = i /\ 0 <= j < j0)) /\
                                  0 <= i' <= i /\ 0 <= j < size /\ near i' j) \/
         (v = 0%Q /\ forall i' j, (0 <= i' < i \/ (i' = i /\ 0 <= j < j0)) ->
                                  0 <= j < size -> ~ near i' j))
        size
        (for_range 0 size
           (fun j value =>
              Dbl.max value
                (ComputeColorPoint x y (get2 Geom.Point2D0 points i j) radius))
           value)).
    { apply (for_range_inv (fun j0 v =>
        (v = 1%Q /\ exists i' j, (0 <= i' < i \/ (i' = i /\ 0 <= j < j0)) /\
                                 0 <= i' <= i /\ 0 <= j < size /\ near i' j) \/
        (v = 0%Q /\ forall i' j, (0 <= i' < i \/ (i' = i /\ 0 <= j < j0)) ->
                                 0 <= j < size -> ~ near i' j))).
      - exact Hsize.
      - destruct Hout as [[-> (i' & j & Hi' & Hj & Hn)] | [-> Hall]].
        + left. split; [reflexivity|]. exists i', j.
          repeat split; try lia. exact Hn.
        + right. split; [reflexivity|]. intros i' j [Hi'|[-> Hj]] Hj'.
          * apply Hall; lia.
          * lia.
      - intros j v Hj Hv.
        destruct (Hpoint i j) as [[Hc Hn] | [Hc Hn]]; rewrite Hc.
        + left. split.
          * destruct Hv as [[-> _] | [-> _]]; vm_compute; reflexivity.
          * exists i, j. repeat split; try lia. exact Hn.
        + destruct Hv as [[-> (i' & j' & Hor & Hi' & Hj' & Hn')] | [-> Hall]].
          * left. split; [vm_compute; reflexivity|]. exists i', j'.
            repeat split; try lia. exact Hn'.
          * right. split; [vm_compute; reflexivity|].
            intros i' j' Hor Hj'.
            destruct (Z.eq_dec i' i) as [->|Hne];
              [destruct (Z.eq_dec j' j) as [->|Hnej]|].
            -- exact Hn.
            -- apply Hall; lia.
            -- apply Hall; lia. }
    cbv beta in Hinner.
    destruct Hinner as [[Hv (i' & j & Hor & Hi' & Hj & Hn)] | [Hv Hall]].
    + left. split; [exact Hv|]. exists i', j. repeat split; try lia. exact Hn.
    + right. split; [exact Hv|]. intros i' j Hi' Hj. apply Hall; lia.
Qed.

Lemma ComputeColorPoints_marks_witness :
  let near := fun i j =>
    (Geom.dist (Math2D := Scenario.math2d) (mkPoint2D (61 # 16) (59 # 16))
               (get2 Geom.Point2D0 Scenario.points i j) < 1 # 16)%Q in
  0 <= 7 /\ near 3 3 /\
  (Geom.dist (Math2D := Scenario.math2d) (mkPoint2D (61 # 16) (59 # 16))
             (get2 Geom.Point2D0 Scenario.points 3 3) == 1 # 32)%Q /\
  ComputeColorPoints (M := Scenario.math2d) 7 (61 # 16) (59 # 16)
                     Scenario.points (1 # 16) = 1%Q.
Proof.
  intros near.
  assert (Hn : near 3 3) by (vm_compute; reflexivity).
  split; [lia|]. split; [exact Hn|]. split; [vm_compute; reflexivity|].
  destruct (ComputeColorPoints_marks (M := Scenario.math2d) 7
              (61 # 16) (59 # 16) Scenario.points (1 # 16) ltac:(lia))
    as [[H1 _] | [_ Hall]].
  - exact H1.
  - exfalso. exact (Hall 3 3 ltac:(lia) ltac:(lia) Hn).
Defined.

Lemma ltb_proper (a a' b b' : Q) :
  (a == a')%Q -> (b == b')%Q -> Dbl.ltb a b = Dbl.ltb a' b'.
Proof.
  intros Ha Hb. destruct (Dbl.ltb a' b') eqn:E.
  - apply ltb_true in E. apply ltb_true. lra.
  - apply ltb_false in E. apply ltb_false. lra.
Qed.

Lemma Qfloor_plus_Z (q : Q) (m : Z) : Qfloor (q + inject_Z m) = Qfloor q + m.
Proof.
  pose proof (Qfloor_le q) as Hlo. pose proof (Qlt_floor q) as Hhi.
  rewrite inject_Z_plus in Hhi. change (inject_Z 1) with 1%Q in Hhi.
  assert (Hb : Qfloor q + m <= Qfloor (q + inject_Z m) < Qfloor q + m + 1).
  { apply Qfloor_between.
    - rewrite inject_Z_plus. lra.
    - rewrite !inject_Z_plus. change (inject_Z 1) with 1%Q. lra. }
  lia.
Qed.

Lemma fraction_range (x : Q) :
  (0 <= x - Dbl.floor x)%Q /\ (x - Dbl.floor x < 1)%Q.
Proof.
  unfold Dbl.floor.
  pose proof (Qfloor_le x) as Hlo. pose proof (Qlt_floor x) as Hhi.
  rewrite inject_Z_plus in Hhi. change (inject_Z 1) with 1%Q in Hhi.
  split; lra.
Qed.

Lemma abs_lt (a r : Q) : Dbl.ltb (Dbl.abs a) r = true <-> (- r < a /\ a < r)%Q.
Proof.
  rewrite ltb_true. unfold Dbl.abs. split.
  - intros Hlt. apply Qabs_Qlt_condition. exact Hlt.
  - intros Hc. apply Qabs_Qlt_condition. exact Hc.
Qed.

(** The grid marker of the level-1 grid, as [ComputeColor] calls it: with
    offset 0 and a radius of at most half a cell, the band of a grid line
    lies on one side of the line only.  A point is marked exactly when the
    fractional part of x or of y is below the radius; a point just before a
    grid line is not marked. *)
Theorem ComputeColorGrid_band (x y radius : Q) :
  (radius <= 1 # 2)%Q ->
  let fx := (x - Dbl.floor x)%Q in
  let fy := (y - Dbl.floor y)%Q in
  (ComputeColorGrid x y 0 0 radius
   = if Dbl.ltb fx radius || Dbl.ltb fy radius then 1%Q else 0%Q) /\
  (ComputeColorGrid x y 0 0 radius = 1%Q <-> (fx < radius \/ fy < radius)%Q) /\
  ((radius <= fx /\ radius <= fy)%Q -> ComputeColorGrid x y 0 0 radius = 0%Q).
Proof.
  intros _ fx fy.
  destruct (fraction_range x) as [Hx0 Hx1].
  destruct (fraction_range y) as [Hy0 Hy1]. fold fx in Hx0, Hx1.
  fold fy in Hy0, Hy1.
  assert (Hzero : forall f, (0 <= f)%Q ->
            Dbl.ltb (Dbl.abs (f - 0)) radius = Dbl.ltb f radius).
  { intros f Hf. apply ltb_proper; [|reflexivity].
    unfold Dbl.abs. rewrite Qabs_pos by lra. ring. }
  assert (Hval : ComputeColorGrid x y 0 0 radius
                 = if Dbl.ltb fx radius || Dbl.ltb fy radius
                   then 1%Q else 0%Q).
  { unfold ComputeColorGrid. fold fx fy. rewrite !Hzero by assumption.
    reflexivity. }
  split; [exact Hval|]. rewrite Hval. split.
  - destruct (Dbl.ltb fx radius) eqn:Ex; destruct (Dbl.ltb fy radius) eqn:Ey;
      cbn [orb]; rewrite ?ltb_true in *; rewrite ?ltb_false in *;
      split; try (intros; reflexivity); try tauto; try discriminate.
    intros [H|H]; lra.
  - intros [Hx Hy].
    assert (Ex : Dbl.ltb fx radius = false) by (apply ltb_false; exact Hx).
    assert (Ey : Dbl.ltb fy radius = false) by (apply ltb_false; exact Hy).
    rewrite Ex, Ey. reflexivity.
Qed.

Lemma ComputeColorGrid_band_witness :
  (* just after the grid line x = 3, and just before it *)
  ((1 # 128 <= 1 # 2)%Q /\
   ComputeColorGrid (769 # 256) (1 # 2) 0 0 (1 # 128) = 1%Q) /\
  ((1 # 128 <= 1 # 2)%Q /\
   (1 # 128 <= (767 # 256) - Dbl.floor (767 # 256))%Q /\
   (1 # 128 <= (1 # 2) - Dbl.floor (1 # 2))%Q /\
   ComputeColorGrid (767 # 256) (1 # 2) 0 0 (1 # 128) = 0%Q).
Proof.
  assert (Hr : (1 # 128 <= 1 # 2)%Q) by (vm_compute; discriminate).
  assert (Hx : (1 # 128 <= (767 # 256) - Dbl.floor (767 # 256))%Q)
    by (vm_compute; discriminate).
  assert (Hy : (1 # 128 <= (1 # 2) - Dbl.floor (1 # 2))%Q)
    by (vm_compute; discriminate).
  split.
  - split; [exact Hr|].
    apply (proj1 (proj2 (ComputeColorGrid_band (769 # 256) (1 # 2) (1 # 128)
                           Hr))).
    left. vm_compute. reflexivity.
  - split; [exact Hr|]. split; [exact Hx|]. split; [exact Hy|].
    exact (proj2 (proj2 (ComputeColorGrid_band (767 # 256) (1 # 2) (1 # 128)
                           Hr)) (conj Hx Hy)).
Defined.

(** The grid markers are periodic: moving the query by whole cells does not
    change them. *)
Theorem ComputeColorGrid_periodic (x y deltaX deltaY radius : Q) (m k : Z) :
  ComputeColorGrid (x + inject_Z m) (y + inject_Z k) deltaX deltaY radius
  = ComputeColorGrid x y deltaX deltaY radius.
Proof.
  unfold ComputeColorGrid, Dbl.floor, Dbl.abs. rewrite !Qfloor_plus_Z.
  rewrite (ltb_proper
             (Qabs (x + inject_Z m - inject_Z (Qfloor x + m) - deltaX))
             (Qabs (x - inject_Z (Qfloor x) - deltaX)) radius radius);
    [|apply Qabs_wd; rewrite inject_Z_plus; ring | reflexivity].
  rewrite (ltb_proper
             (Qabs (y + inject_Z k - inject_Z (Qfloor y + k) - deltaY))
             (Qabs (y - inject_Z (Qfloor y) - deltaY)) radius radius);
    [|apply Qabs_wd; rewrite inject_Z_plus; ring | reflexivity].
  reflexivity.
Qed.

Lemma ComputeColorPoints_bit {M : Geom.Math2D} (size : Z) (x y : Q) (points : list (list Point2D))
      (radius : Q) :
  ComputeColorPoints size x y points radius = 0%Q \/
  ComputeColorPoints size x y points radius = 1%Q.
Proof.
  unfold ComputeColorPoints.
  apply (for_range_preserves (fun v : Q => v = 0%Q \/ v = 1%Q)); [left; reflexivity|].
  intros i v Hv.
  apply (for_range_preserves (fun v : Q => v = 0%Q \/ v = 1%Q)); [exact Hv|].
  intros j v' Hv'.
  assert (Hc : ComputeColorPoint x y (get2 Geom.Point2D0 points i j) radius = 0%Q \/
               ComputeColorPoint x y (get2 Geom.Point2D0 points i j) radius = 1%Q).
  { unfold ComputeColorPoint. destruct (Dbl.ltb _ radius); tauto. }
  destruct (max_bit v' _ Hv' Hc) as [[-> _] | [-> _]]; tauto.
Qed.

Lemma ComputeColorSegment_bit {M : Geom.Math2D} (x y : Q) (segments : list Segment3D) (radius : Q) :
  ComputeColorSegment x y segments radius = 0%Q \/
  ComputeColorSegment x y segments radius = 1%Q.
Proof.
  unfold ComputeColorSegment.
  apply (for_each_preserves (fun v : Q => v = 0%Q \/ v = 1%Q)); [left; reflexivity|].
  intros s v Hv. destruct (Dbl.ltb _ radius); tauto.
Qed.

Lemma ComputeColorGrid_bit (x y deltaX deltaY radius : Q) :
  ComputeColorGrid x y deltaX deltaY radius = 0%Q \/
  ComputeColorGrid x y deltaX deltaY radius = 1%Q.
Proof. unfold ComputeColorGrid. destruct (_ || _); tauto. Qed.

Lemma max_bit_closed (a b : Q) :
  (a = 0%Q \/ a = 1%Q) -> (b = 0%Q \/ b = 1%Q) ->
  Dbl.max a b = 0%Q \/ Dbl.max a b = 1%Q.
Proof. intros Ha Hb. destruct (max_bit a b Ha Hb) as [[-> _] | [-> _]]; tauto. Qed.

Ltac overlay_bit :=
  first [ apply ComputeColorPoints_bit
        | apply ComputeColorSegment_bit
        | apply ComputeColorGrid_bit
        | left; reflexivity
        | apply max_bit_closed; overlay_bit ].

Lemma ComputeColor_bit {M : Geom.Math2D} (n : Noise) (x y : Q) (points midPoints : list (list Point2D))
      (segmentsBegin segmentsEnd : list Segment3D) :
  ComputeColor n x y points midPoints segmentsBegin segmentsEnd = 0%Q \/
  ComputeColor n x y points midPoints segmentsBegin segmentsEnd = 1%Q.
Proof.
  unfold ComputeColor, ComputeColorPoints7, ComputeColorPoints5,
    ComputeColorSegment25.
  destruct (m_displayPoints n), (m_displaySegments n), (m_displayGrid n);
    overlay_bit.
Qed.

Lemma ComputeColorSub_bit {M : Geom.Math2D} (n : Noise) (x y : Q)
      (points : list (list Point2D)) (segments : list Segment3D) :
  ComputeColorSub n x y points segments = 0%Q \/
  ComputeColorSub n x y points segments = 1%Q.
Proof.
  unfold ComputeColorSub, ComputeColorPoints5, ComputeColorSegment9.
  destruct (m_displayPoints n), (m_displaySegments n), (m_displayGrid n);
    overlay_bit.
Qed.

(** The two overlays return 0 or 1, and 0 when the three display flags are
    off; with the grid flag on, [ComputeColor] is 1 on the band of the
    level-1 grid. *)
Theorem ComputeColor_overlay {M : Geom.Math2D} (n : Noise) (x y : Q)
    (points midPoints subPoints : list (list Point2D))
    (segmentsBegin segmentsEnd subSegments : list Segment3D) :
  let c := ComputeColor n x y points midPoints segmentsBegin segmentsEnd in
  let cs := ComputeColorSub n x y subPoints subSegments in
  ((c = 0%Q \/ c = 1%Q) /\ (cs = 0%Q \/ cs = 1%Q)) /\
  (m_displayPoints n = false -> m_displaySegments n = false ->
   m_displayGrid n = false -> c = 0%Q /\ cs = 0%Q) /\
  (m_displayGrid n = true ->
   (x - Dbl.floor x < 1 # 128 \/ y - Dbl.floor y < 1 # 128)%Q -> c = 1%Q).
Proof.
  intros c cs. split; [split; [apply ComputeColor_bit | apply ComputeColorSub_bit]|].
  split.
  - intros Hp Hs Hg. subst c cs. unfold ComputeColor, ComputeColorSub.
    rewrite Hp, Hs, Hg. split; reflexivity.
  - intros Hg Hband. subst c. unfold ComputeColor. rewrite Hg.
    assert (Hgrid : ComputeColorGrid x y 0 0 (1 # 128) = 1%Q).
    { destruct (fraction_range x) as [Hx0 _].
      destruct (fraction_range y) as [Hy0 _].
      unfold ComputeColorGrid.
      assert (Hor : Dbl.ltb (Dbl.abs (x - Dbl.floor x - 0)) (1 # 128)
                    || Dbl.ltb (Dbl.abs (y - Dbl.floor y - 0)) (1 # 128) = true).
      { apply orb_true_iff.
        destruct Hband as [H|H]; [left | right]; apply abs_lt; split; lra. }
      rewrite Hor. reflexivity. }
    rewrite Hgrid.
    match goal with
    | |- Dbl.max ?v 1 = 1%Q =>
        assert (Hv : v = 0%Q \/ v = 1%Q)
    end.
    { destruct (m_displayPoints n), (m_displaySegments n);
        overlay_bit. }
    destruct Hv as [-> | ->]; vm_compute; reflexivity.
Qed.

Lemma ComputeColor_overlay_witness :
  let n := Scenario.engine in
  m_displayPoints n = false /\ m_displaySegments n = false /\
  m_displayGrid n = false /\
  ComputeColor (M := Scenario.math2d) n 2 2 Scenario.points Scenario.midPoints
               Scenario.segmentsBegin Scenario.segmentsEnd = 0%Q.
Proof.
  intros n.
  assert (Hp : m_displayPoints n = false) by (vm_compute; reflexivity).
  assert (Hs : m_displaySegments n = false) by (vm_compute; reflexivity).
  assert (Hg : m_displayGrid n = false) by (vm_compute; reflexivity).
  destruct (ComputeColor_overlay (M := Scenario.math2d) n 2 2
              Scenario.points Scenario.midPoints
              Scenario.subPoints Scenario.segmentsBegin Scenario.segmentsEnd
              Scenario.subSegments) as (_ & Hoff & _).
  destruct (Hoff Hp Hs Hg) as [Hc _].
  split; [exact Hp|]. split; [exact Hs|]. split; [exact Hg | exact Hc].
Defined.

(** ** Quadrants *)

(** [GetSubQuadrant] as [evaluate] calls it, with the cell of the query as
    origin, for a query in the non-negative quadrant of the plane: per axis
    the quadrant is 0 when the fractional part of the coordinate is below
    one half, and 1 otherwise. *)
Theorem GetSubQuadrant_half_cell (x y : Q) :
  (0 <= x)%Q -> (0 <= y)%Q ->
  let fx := (x - Dbl.floor x)%Q in
  let fy := (y - Dbl.floor y)%Q in
  GetSubQuadrant (Dbl.floor x) (Dbl.floor y) x y
  = (if Dbl.ltb fx (1 # 2) then 0 else 1, if Dbl.ltb fy (1 # 2) then 0 else 1).
Proof.
  intros _ _ fx fy. unfold GetSubQuadrant. fold fx fy.
  assert (Hq : forall f : Q, (0 <= f)%Q -> (f < 1)%Q ->
    Dbl.to_int (Dbl.floor (2 * f)) = if Dbl.ltb f (1 # 2) then 0 else 1).
  { intros f H0 H1. destruct (Dbl.ltb f (1 # 2)) eqn:E.
    - apply ltb_true in E.
      assert (Hb : 0 <= Qfloor (2 * f) < 1).
      { apply Qfloor_between.
        - change (inject_Z 0) with 0%Q. lra.
        - change (inject_Z 1) with 1%Q. lra. }
      rewrite to_int_floor
        by (unfold CInt.in_range, CInt.INT_MIN, CInt.INT_MAX; lia).
      lia.
    - apply ltb_false in E.
      assert (Hb : 1 <= Qfloor (2 * f) < 2).
      { apply Qfloor_between.
        - change (inject_Z 1) with 1%Q. lra.
        - change (inject_Z 2) with 2%Q. lra. }
      rewrite to_int_floor
        by (unfold CInt.in_range, CInt.INT_MIN, CInt.INT_MAX; lia).
      lia. }
  destruct (fraction_range x) as [Hx0 Hx1].
  destruct (fraction_range y) as [Hy0 Hy1].
  fold fx in Hx0, Hx1. fold fy in Hy0, Hy1.
  rewrite (Hq fx Hx0 Hx1), (Hq fy Hy0 Hy1). reflexivity.
Qed.

Lemma GetSubQuadrant_half_cell_witness :
  (0 <= 13 # 4)%Q /\ (0 <= 7 # 2)%Q /\
  GetSubQuadrant (Dbl.floor (13 # 4)) (Dbl.floor (7 # 2)) (13 # 4) (7 # 2)
  = (0, 1).
Proof.
  assert (Hx : (0 <= 13 # 4)%Q) by (vm_compute; discriminate).
  assert (Hy : (0 <= 7 # 2)%Q) by (vm_compute; discriminate).
  split; [exact Hx|]. split; [exact Hy|].
  exact (GetSubQuadrant_half_cell (13 # 4) (7 # 2) Hx Hy).
Defined.

(** ** The positional hash *)



(** ** The neighbourhood of a query *)



(** ** The cache is read inside its bounds *)

(** On an initialised engine every cell that passes the guard of
    [GeneratePointCached] is read inside the bounds of the cache: the row
    index is below the number of rows and the column index below the length
    of that row. *)
Theorem GeneratePointCached_in_bounds `{Platform} (n : Noise) (x y : Z) :
  0 <= CACHE_X <= CInt.INT_MAX -> 0 <= CACHE_Y <= CInt.INT_MAX ->
  (x >=? CInt.div (CInt.neg CACHE_X) 2) && (x <? CInt.div CACHE_X 2)
  && (y >=? CInt.div (CInt.neg CACHE_Y) 2) && (y <? CInt.div CACHE_Y 2) = true ->
  let cache := m_pointCache (InitPointCache n) in
  let row := CInt.add x (CInt.div CACHE_X 2) in
  let column := CInt.add y (CInt.div CACHE_Y 2) in
  0 <= row < Z.of_nat (length cache) /\
  0 <= column < Z.of_nat (length (get [] cache row)) /\
  cache !! Z.to_nat row ≫= (fun r => r !! Z.to_nat column)
  = Some (GeneratePoint n x y).
Proof.
  intros HX HY Hguard cache row column.
  destruct (half_window CACHE_X HX) as (HdX & HnX & HhX).
  destruct (half_window CACHE_Y HY) as (HdY & HnY & HhY).
  rewrite HdX, HnX, HdY, HnY in Hguard.
  apply andb_true_iff in Hguard as [Hguard Hy2].
  apply andb_true_iff in Hguard as [Hguard Hy1].
  apply andb_true_iff in Hguard as [Hx1 Hx2].
  apply Z.geb_le in Hx1, Hy1. apply Z.ltb_lt in Hx2, Hy2.
  destruct (InitPointCache_shape n HX HY) as [Hlen Hrows].
  destruct (InitPointCache_stores HX HY n) as [_ Hstored].
  specialize (Hrows x ltac:(lia)). specialize (Hstored x y ltac:(lia) ltac:(lia)).
  subst row column. rewrite HdX, HdY.
  rewrite (add_half_window CACHE_X x HX) by lia.
  rewrite (add_half_window CACHE_Y y HY) by lia.
  fold cache in Hlen, Hrows, Hstored.
  assert (Hr : 0 <= x + Z.quot CACHE_X 2 < Z.of_nat (length cache)) by lia.
  assert (Hc : 0 <= y + Z.quot CACHE_Y 2
               < Z.of_nat (length (get [] cache (x + Z.quot CACHE_X 2)))) by lia.
  split; [exact Hr|]. split; [exact Hc|].
  unfold get2, get in Hstored, Hc.
  destruct (Z.ltb_spec (x + Z.quot CACHE_X 2) 0) as [Hneg|_]; [lia|].
  destruct (Z.ltb_spec (y + Z.quot CACHE_Y 2) 0) as [Hneg|_]; [lia|].
  destruct (cache !! Z.to_nat (x + Z.quot CACHE_X 2)) as [r|] eqn:Er;
    cbn [default mbind option_bind] in *; [|cbn [length] in Hc; lia].
  destruct (r !! Z.to_nat (y + Z.quot CACHE_Y 2)) as [v|] eqn:Ev.
  - cbn in Hstored. rewrite Ev in Hstored. cbn in Hstored. congruence.
  - apply lookup_ge_None in Ev. cbn in Hc. lia.
Qed.

Lemma GeneratePointCached_in_bounds_witness :
  let n := mkNoise 0 false false false Scenario.origin Scenario.unit
                   Scenario.origin Scenario.unit (1 # 8) [] in
  let cache := m_pointCache (InitPointCache (H := Scenario.platform) n) in
  (0 <= @CACHE_X Scenario.platform <= CInt.INT_MAX) /\
  (0 <= @CACHE_Y Scenario.platform <= CInt.INT_MAX) /\
  0 <= CInt.add (-2) (CInt.div (@CACHE_X Scenario.platform) 2)
    < Z.of_nat (length cache).
Proof.
  intros n cache.
  assert (HX : 0 <= @CACHE_X Scenario.platform <= CInt.INT_MAX)
    by (vm_compute; split; discriminate).
  assert (HY : 0 <= @CACHE_Y Scenario.platform <= CInt.INT_MAX)
    by (vm_compute; split; discriminate).
  destruct (GeneratePointCached_in_bounds (H := Scenario.platform) n (-2) 1
              HX HY eq_refl) as (Hrow & _).
  split; [exact HX|]. split; [exact HY | exact Hrow].
Defined.

(** ** The refined neighbourhood *)

Lemma GenerateNeighboringPoints5_get `{Platform} n cx cy i j :
  0 <= i < 5 -> 0 <= j < 5 ->
  get2 Geom.Point2D0 (GenerateNeighboringPoints5 n cx cy) i j
  = GeneratePointCached n (CInt.sub (CInt.add cx j) (CInt.div 5 2))
                          (CInt.sub (CInt.add cy i) (CInt.div 5 2)).
Proof.
  intros Hi Hj. unfold GenerateNeighboringPoints5.
  apply (fill2_get Geom.Point2D0 5 5
           (fun i j => GeneratePointCached n
                         (CInt.sub (CInt.add cx j) (CInt.div 5 2))
                         (CInt.sub (CInt.add cy i) (CInt.div 5 2)))
           (array2 5 5 Geom.Point2D0) (shape2_array2 5 5 Geom.Point2D0));
    assumption.
Qed.

(** The second loop of [GenerateNeighboringSubPoints] halves every point in
    place. *)
Lemma HalveSubPoints_get (subPoints : list (list Point2D)) (k l : Z) :
  shape2 5 5 subPoints -> 0 <= k < 5 -> 0 <= l < 5 ->
  get2 Geom.Point2D0 (HalveSubPoints subPoints) k l
  = mkPoint2D (x2 (get2 Geom.Point2D0 subPoints k l) / 2)
              (y2 (get2 Geom.Point2D0 subPoints k l) / 2).
Proof.
  intros Hshape Hk Hl.
  set (halve := fun p : Point2D => mkPoint2D (x2 p / 2) (y2 p / 2)).
  set (inv := fun (i j : Z) (arr : list (list Point2D)) =>
    shape2 5 5 arr /\
    forall k l, 0 <= k < 5 -> 0 <= l < 5 ->
      get2 Geom.Point2D0 arr k l
      = if (k <? i) || ((k =? i) && (l <? j))
        then halve (get2 Geom.Point2D0 subPoints k l)
        else get2 Geom.Point2D0 subPoints k l).
  assert (Hrow : forall i arr, 0 <= i < 5 -> inv i 0 arr ->
    inv (i + 1) 0
        (for_range 0 5 (fun j subPoints =>
           let p := get2 Geom.Point2D0 subPoints i j in
           set2 subPoints i j (mkPoint2D (x2 p / 2) (y2 p / 2))) arr)).
  { intros i arr Hi Hinv.
    assert (Hin : inv i 5
      (for_range 0 5 (fun j subPoints =>
         let p := get2 Geom.Point2D0 subPoints i j in
         set2 subPoints i j (mkPoint2D (x2 p / 2) (y2 p / 2))) arr)).
    { apply (for_range_inv (fun j arr => inv i j arr)); [lia | exact Hinv|].
      intros j st Hj [Hsh Hget]. split; [apply shape2_set2, Hsh|].
      intros k' l' Hk' Hl'.
      destruct (Z.eq_dec k' i) as [->|Hnek];
        [destruct (Z.eq_dec l' j) as [->|Hnel]|].
      - destruct Hsh as [Hn Hm].
        rewrite get2_set2_eq by (rewrite ?Hm; lia).
        rewrite (Hget i j) by lia.
        rewrite Z.ltb_irrefl, Z.eqb_refl, Z.ltb_irrefl. cbn [orb andb].
        replace (j <? j + 1) with true by (symmetry; apply Z.ltb_lt; lia).
        reflexivity.
      - rewrite get2_set2_ne by (intros [=]; lia).
        rewrite (Hget i l') by lia.
        rewrite Z.ltb_irrefl, Z.eqb_refl. cbn [orb andb].
        destruct (Z.ltb_spec l' j), (Z.ltb_spec l' (j + 1));
          try reflexivity; lia.
      - rewrite get2_set2_ne by (intros [=]; lia).
        rewrite (Hget k' l') by lia.
        replace (k' =? i) with false by (symmetry; apply Z.eqb_neq; lia).
        reflexivity. }
    destruct Hin as [Hsh Hget]. split; [exact Hsh|].
    intros k' l' Hk' Hl'. rewrite (Hget k' l') by assumption.
    destruct (Z.ltb_spec k' i), (Z.eqb_spec k' i), (Z.ltb_spec l' 5),
      (Z.ltb_spec k' (i + 1)), (Z.eqb_spec k' (i + 1)), (Z.ltb_spec l' 0);
      cbn [orb andb]; try reflexivity; lia. }
  assert (Hall : inv 5 0 (HalveSubPoints subPoints)).
  { unfold HalveSubPoints.
    apply (for_range_inv (fun i arr => inv i 0 arr)).
    - lia.
    - split; [exact Hshape|]. intros k' l' Hk' Hl'.
      destruct (Z.ltb_spec k' 0), (Z.eqb_spec k' 0), (Z.ltb_spec l' 0);
        cbn [orb andb]; try reflexivity; lia.
    - intros i st Hi Hinv. apply Hrow; assumption. }
  destruct Hall as [_ Hget]. rewrite (Hget k l) by assumption.
  replace (k <? 5) with true by (symmetry; apply Z.ltb_lt; lia).
  reflexivity.
Qed.

(** After the replacement loop a position holds either what it held before
    or a level-1 point whose address it is. *)
Lemma ReplaceSubPoints_cases (cx cy : Q) (quadrantX quadrantY : Z)
      (points subPoints : list (list Point2D)) (k l : Z) :
  shape2 5 5 subPoints ->
  get2 Geom.Point2D0
       (ReplaceSubPoints cx cy quadrantX quadrantY points subPoints) k l
  = get2 Geom.Point2D0 subPoints k l \/
  exists i j, (0 <= i < 7 /\ 0 <= j < 7) /\
    QuadrantAddress cx cy quadrantX quadrantY points i j = (k, l) /\
    get2 Geom.Point2D0
         (ReplaceSubPoints cx cy quadrantX quadrantY points subPoints) k l
    = get2 Geom.Point2D0 points i j.
Proof.
  intros Hshape.
  set (addr := QuadrantAddress cx cy quadrantX quadrantY points).
  set (body := fun (i j : Z) (sp : list (list Point2D)) =>
    if (fst (addr i j) >=? 0) && (fst (addr i j) <? 5)
       && (snd (addr i j) >=? 0) && (snd (addr i j) <? 5)
    then set2 sp (fst (addr i j)) (snd (addr i j))
              (get2 Geom.Point2D0 points i j)
    else sp).
  assert (Hbody :
    ReplaceSubPoints cx cy quadrantX quadrantY points subPoints
    = for_range 0 7 (fun i sp => for_range 0 7 (fun j sp => body i j sp) sp)
                subPoints).
  { unfold ReplaceSubPoints. apply for_range_ext. intros i sp _.
    apply for_range_ext. intros j sp' _. unfold body, addr, QuadrantAddress.
    destruct (GetSubQuadrant cx cy (x2 (get2 Geom.Point2D0 points i j))
                (y2 (get2 Geom.Point2D0 points i j))) as [qX qY].
    reflexivity. }
  rewrite Hbody. clear Hbody.
  set (good := fun (sp : list (list Point2D)) =>
    shape2 5 5 sp /\
    (get2 Geom.Point2D0 sp k l = get2 Geom.Point2D0 subPoints k l \/
     exists i j, (0 <= i < 7 /\ 0 <= j < 7) /\ addr i j = (k, l) /\
       get2 Geom.Point2D0 sp k l = get2 Geom.Point2D0 points i j)).
  assert (Hgood : good (for_range 0 7
                  (fun i sp => for_range 0 7 (fun j sp => body i j sp) sp)
                  subPoints)).
  { apply (for_range_inv (fun _ sp => good sp));
      [lia | split; [exact Hshape | left; reflexivity]|].
    intros i sp Hi Hsp.
    apply (for_range_inv (fun _ sp => good sp)); [lia | exact Hsp|].
    intros j sp' Hj [Hsh Hsp']. unfold body.
    destruct ((fst (addr i j) >=? 0) && (fst (addr i j) <? 5)
              && (snd (addr i j) >=? 0) && (snd (addr i j) <? 5)) eqn:Hguard;
      [|split; assumption].
    split; [apply shape2_set2, Hsh|].
    destruct (decide ((fst (addr i j), snd (addr i j)) = (k, l))) as [Heq|Hne].
    - assert (Hk : fst (addr i j) = k) by exact (f_equal fst Heq).
      assert (Hl : snd (addr i j) = l) by exact (f_equal snd Heq).
      right. exists i, j.
      split; [split; assumption|]. split.
      + rewrite (surjective_pairing (addr i j)). f_equal; assumption.
      + rewrite Hk, Hl.
        apply andb_true_iff in Hguard as [Hguard Hl5].
        apply andb_true_iff in Hguard as [Hguard Hl0].
        apply andb_true_iff in Hguard as [Hk0 Hk5].
        rewrite Hk in Hk0, Hk5. rewrite Hl in Hl0, Hl5.
        apply Z.geb_le in Hk0, Hl0. apply Z.ltb_lt in Hk5, Hl5.
        destruct Hsh as [Hn Hm].
        apply get2_set2_eq; [rewrite Hn; lia | rewrite Hm; lia].
    - rewrite get2_set2_ne by exact Hne. exact Hsp'. }
  exact (proj2 Hgood).
Qed.

(** The quadrant, counted from the cell [c], of half a coordinate that lies
    in the level-2 cell 2 c + q, away from its right edge. *)
Lemma halved_quadrant (v : Q) (c q : Z) (eps : Q) :
  (inject_Z (2 * c + q) + eps <= v)%Q ->
  (v <= inject_Z (2 * c + q) + 1 - eps)%Q ->
  (0 < eps)%Q -> -100 <= q <= 100 ->
  Dbl.to_int (Dbl.floor (2 * (v / 2 - inject_Z c))) = q.
Proof.
  intros Hlo Hhi Heps Hq.
  rewrite inject_Z_plus, inject_Z_mult in Hlo, Hhi.
  change (inject_Z 2) with 2%Q in Hlo, Hhi.
  assert (Hfl : q <= Qfloor (2 * (v / 2 - inject_Z c)) < q + 1).
  { apply Qfloor_between.
    - unfold Qdiv. change (/ 2)%Q with (1 # 2)%Q. lra.
    - rewrite inject_Z_plus. change (inject_Z 1) with 1%Q.
      unfold Qdiv. change (/ 2)%Q with (1 # 2)%Q. lra. }
  rewrite to_int_floor
    by (unfold CInt.in_range, CInt.INT_MIN, CInt.INT_MAX; lia).
  lia.
Qed.

(** The address of a level-1 point lying in its own cell, without wrap:
    the quadrant of the point, counted from the quadrant of the query, moved
    to the centre (2, 2). *)
Lemma QuadrantAddress_exact (x y : Q) (quadrantX quadrantY : Z)
      (points : list (list Point2D)) (i j : Z) :
  InOwnCells (Dbl.floor x) (Dbl.floor y) points = true ->
  0 <= i < 7 -> 0 <= j < 7 ->
  0 <= quadrantX <= 1 -> 0 <= quadrantY <= 1 ->
  QuadrantAddress (Dbl.floor x) (Dbl.floor y) quadrantX quadrantY points i j
  = (2 - quadrantY
     + snd (GetSubQuadrant (Dbl.floor x) (Dbl.floor y)
              (x2 (get2 Geom.Point2D0 points i j))
              (y2 (get2 Geom.Point2D0 points i j))),
     2 - quadrantX
     + fst (GetSubQuadrant (Dbl.floor x) (Dbl.floor y)
              (x2 (get2 Geom.Point2D0 points i j))
              (y2 (get2 Geom.Point2D0 points i j)))).
Proof.
  intros Hcells Hi Hj HqX HqY.
  destruct (InOwnCells_get _ _ points i j Hcells Hi Hj) as [Hx Hy].
  unfold Dbl.floor in Hx, Hy. rewrite Qfloor_Z in Hx, Hy.
  unfold QuadrantAddress, GetSubQuadrant. cbn [fst snd].
  pose proof (quadrant_of_cell (x2 (get2 Geom.Point2D0 points i j))
                (Qfloor x) (j - 3) ltac:(lia) ltac:(lia)) as HpX.
  pose proof (quadrant_of_cell (y2 (get2 Geom.Point2D0 points i j))
                (Qfloor y) (i - 3) ltac:(lia) ltac:(lia)) as HpY.
  change (Dbl.floor x) with (inject_Z (Qfloor x)).
  change (Dbl.floor y) with (inject_Z (Qfloor y)).
  set (qX := Dbl.to_int (Dbl.floor (2 * (x2 (get2 Geom.Point2D0 points i j)
                                         - inject_Z (Qfloor x))))) in *.
  set (qY := Dbl.to_int (Dbl.floor (2 * (y2 (get2 Geom.Point2D0 points i j)
                                         - inject_Z (Qfloor y))))) in *.
  change (CInt.div 5 2) with 2. unfold CInt.add, CInt.sub.
  rewrite (small_wrap (2 - quadrantY)) by lia.
  rewrite (small_wrap (2 - quadrantX)) by lia.
  rewrite (small_wrap (2 - quadrantY + qY)) by lia.
  rewrite (small_wrap (2 - quadrantX + qX)) by lia.
  reflexivity.
Qed.

(** Every point of the refined 5 x 5 neighbourhood of an initialised engine
    lies in the quadrant of its position: the point at row k, column l lies
    in the quadrant (quadrantX + l - 2, quadrantY + k - 2) counted from the
    cell of the query, whether it was generated at level 2 or is a level-1
    point copied over it. The centre therefore lies in the quadrant of the
    query. *)
Theorem GenerateNeighboringSubPoints_quadrants `{Platform} (n0 : Noise)
    (x y : Q) (points : list (list Point2D)) (k l : Z) :
  uniform_in_range ->
  0 <= CACHE_X <= CInt.INT_MAX -> 0 <= CACHE_Y <= CInt.INT_MAX ->
  (0 < m_eps n0)%Q -> (m_eps n0 < 1 # 2)%Q ->
  CInt.INT_MIN + 2 <= 2 * Qfloor x <= CInt.INT_MAX - 5 ->
  CInt.INT_MIN + 2 <= 2 * Qfloor y <= CInt.INT_MAX - 5 ->
  InOwnCells (Dbl.floor x) (Dbl.floor y) points = true ->
  0 <= k < 5 -> 0 <= l < 5 ->
  let cx := Dbl.floor x in
  let cy := Dbl.floor y in
  let r := get2 Geom.Point2D0
             (GenerateNeighboringSubPoints (InitPointCache n0) cx cy x y points)
             k l in
  GetSubQuadrant cx cy (x2 r) (y2 r)
  = (fst (GetSubQuadrant cx cy x y) + l - 2,
     snd (GetSubQuadrant cx cy x y) + k - 2).
Proof.
  intros Hu HX HY Heps0 Heps1 Hx Hy Hcells Hk Hl cx cy r.
  destruct (InitPointCache_stores HX HY n0) as [(_ & Heps & _) _].
  assert (Hxr : CInt.in_range (Qfloor x))
    by (unfold CInt.in_range, CInt.INT_MIN, CInt.INT_MAX in *; lia).
  assert (Hyr : CInt.in_range (Qfloor y))
    by (unfold CInt.in_range, CInt.INT_MIN, CInt.INT_MAX in *; lia).
  pose proof (quadrant_of_cell x (Qfloor x) 0 ltac:(lia) ltac:(lia)) as HqX.
  pose proof (quadrant_of_cell y (Qfloor y) 0 ltac:(lia) ltac:(lia)) as HqY.
  set (quadrantX := Dbl.to_int (Dbl.floor (2 * (x - inject_Z (Qfloor x))))) in *.
  set (quadrantY := Dbl.to_int (Dbl.floor (2 * (y - inject_Z (Qfloor y))))) in *.
  assert (Hquad : GetSubQuadrant cx cy x y = (quadrantX, quadrantY))
    by reflexivity.
  set (level2 := GenerateNeighboringPoints5 (InitPointCache n0)
         (CInt.add (CInt.mul 2 (Dbl.to_int cx)) quadrantX)
         (CInt.add (CInt.mul 2 (Dbl.to_int cy)) quadrantY)).
  assert (Hr : r = get2 Geom.Point2D0
                     (ReplaceSubPoints cx cy quadrantX quadrantY points
                                       (HalveSubPoints level2)) k l).
  { subst r. unfold GenerateNeighboringSubPoints. rewrite Hquad.
    reflexivity. }
  rewrite Hquad. cbn [fst snd]. rewrite Hr. clear Hr r.
  assert (Hshape : shape2 5 5 (HalveSubPoints level2))
    by apply HalveSubPoints_shape, GenerateNeighboringPoints5_shape.
  destruct (ReplaceSubPoints_cases cx cy quadrantX quadrantY points
              (HalveSubPoints level2) k l Hshape)
    as [Hkept | (i & j & [Hi Hj] & Haddr & Hcopied)].
  - (* a level-2 point, halved *)
    rewrite Hkept.
    rewrite HalveSubPoints_get
      by (try apply GenerateNeighboringPoints5_shape; assumption).
    cbn [x2 y2]. subst level2.
    rewrite GenerateNeighboringPoints5_get by assumption.
    rewrite (GeneratePointCached_InitPointCache HX HY).
    subst cx cy.
    rewrite (to_int_floor x Hxr), (to_int_floor y Hyr).
    change (CInt.div 5 2) with 2. unfold CInt.add, CInt.sub, CInt.mul.
    rewrite (wrap_in_range (2 * Qfloor x))
      by (unfold CInt.in_range, CInt.INT_MIN, CInt.INT_MAX in *; lia).
    rewrite (wrap_in_range (2 * Qfloor y))
      by (unfold CInt.in_range, CInt.INT_MIN, CInt.INT_MAX in *; lia).
    rewrite (wrap_in_range (2 * Qfloor x + quadrantX))
      by (unfold CInt.in_range, CInt.INT_MIN, CInt.INT_MAX in *; lia).
    rewrite (wrap_in_range (2 * Qfloor y + quadrantY))
      by (unfold CInt.in_range, CInt.INT_MIN, CInt.INT_MAX in *; lia).
    rewrite (wrap_in_range (2 * Qfloor x + quadrantX + l))
      by (unfold CInt.in_range, CInt.INT_MIN, CInt.INT_MAX in *; lia).
    rewrite (wrap_in_range (2 * Qfloor y + quadrantY + k))
      by (unfold CInt.in_range, CInt.INT_MIN, CInt.INT_MAX in *; lia).
    rewrite (wrap_in_range (2 * Qfloor x + quadrantX + l - 2))
      by (unfold CInt.in_range, CInt.INT_MIN, CInt.INT_MAX in *; lia).
    rewrite (wrap_in_range (2 * Qfloor y + quadrantY + k - 2))
      by (unfold CInt.in_range, CInt.INT_MIN, CInt.INT_MAX in *; lia).
    assert (Hb := GeneratePoint_bounds (InitPointCache n0)
                    (2 * Qfloor x + quadrantX + l - 2)
                    (2 * Qfloor y + quadrantY + k - 2) Hu
                    ltac:(rewrite <- Heps; exact Heps0)
                    ltac:(rewrite <- Heps; exact Heps1)).
    rewrite <- Heps in Hb. destruct Hb as [[Hx0 Hx1] [Hy0 Hy1]].
    unfold GetSubQuadrant.
    change (Dbl.floor x) with (inject_Z (Qfloor x)).
    change (Dbl.floor y) with (inject_Z (Qfloor y)).
    f_equal.
    + apply (halved_quadrant _ (Qfloor x) (quadrantX + l - 2) (m_eps n0));
        [ | | exact Heps0 | lia].
      * replace (2 * Qfloor x + (quadrantX + l - 2))
          with (2 * Qfloor x + quadrantX + l - 2) by lia. exact Hx0.
      * replace (2 * Qfloor x + (quadrantX + l - 2))
          with (2 * Qfloor x + quadrantX + l - 2) by lia. exact Hx1.
    + apply (halved_quadrant _ (Qfloor y) (quadrantY + k - 2) (m_eps n0));
        [ | | exact Heps0 | lia].
      * replace (2 * Qfloor y + (quadrantY + k - 2))
          with (2 * Qfloor y + quadrantY + k - 2) by lia. exact Hy0.
      * replace (2 * Qfloor y + (quadrantY + k - 2))
          with (2 * Qfloor y + quadrantY + k - 2) by lia. exact Hy1.
  - (* a level-1 point, copied *)
    rewrite Hcopied. subst cx cy.
    rewrite (QuadrantAddress_exact x y quadrantX quadrantY points i j
               Hcells Hi Hj HqX HqY) in Haddr.
    unfold GetSubQuadrant in Haddr |- *. cbn [fst snd] in Haddr.
    injection Haddr as Hk' Hl'. f_equal; lia.
Qed.

Lemma GenerateNeighboringSubPoints_quadrants_witness :
  let n0 := mkNoise 0 false false false Scenario.origin Scenario.unit
                    Scenario.origin Scenario.unit (1 # 8) [] in
  let x := x2 Scenario.query in
  let y := y2 Scenario.query in
  let cx := Dbl.floor x in
  let cy := Dbl.floor y in
  let r := get2 Geom.Point2D0
             (GenerateNeighboringSubPoints (H := Scenario.platform)
                (InitPointCache (H := Scenario.platform) n0) cx cy x y
                Scenario.points) 1 3 in
  (CInt.INT_MIN + 2 <= 2 * Qfloor x <= CInt.INT_MAX - 5) /\
  (CInt.INT_MIN + 2 <= 2 * Qfloor y <= CInt.INT_MAX - 5) /\
  InOwnCells cx cy Scenario.points = true /\
  GetSubQuadrant cx cy (x2 r) (y2 r)
  = (fst (GetSubQuadrant cx cy x y) + 3 - 2,
     snd (GetSubQuadrant cx cy x y) + 1 - 2).
Proof.
  intros n0 x y cx cy r.
  assert (HX : 0 <= @CACHE_X Scenario.platform <= CInt.INT_MAX)
    by (vm_compute; split; discriminate).
  assert (HY : 0 <= @CACHE_Y Scenario.platform <= CInt.INT_MAX)
    by (vm_compute; split; discriminate).
  assert (Hx : CInt.INT_MIN + 2 <= 2 * Qfloor x <= CInt.INT_MAX - 5)
    by (vm_compute; split; discriminate).
  assert (Hy : CInt.INT_MIN + 2 <= 2 * Qfloor y <= CInt.INT_MAX - 5)
    by (vm_compute; split; discriminate).
  assert (Hcells : InOwnCells cx cy Scenario.points = true)
    by (vm_compute; reflexivity).
  split; [exact Hx|]. split; [exact Hy|]. split; [exact Hcells|].
  exact (GenerateNeighboringSubPoints_quadrants (H := Scenario.platform)
           n0 x y Scenario.points 1 3 Scenario_uniform_in_range HX HY
           eq_refl eq_refl Hx Hy Hcells ltac:(lia) ltac:(lia)).
Defined.
